(** * cases: splitting identifiers into pieces and re-casing them

    A shallow embedding of [mod.ts] (package [@luca/cases]) and the
    properties of its word segmentation and of its six formatters.

    Modelling choices.
    - A JavaScript string is the list of its UTF-16 code units ([str]);
      [s[0]], [s.slice(1)], [+], [join] and [===] work on code units.
    - The regular expression of [splitPieces] has the [u] flag: it reads the
      string as code points ([decode], the StringToCodePoints of ECMAScript,
      which pairs surrogates and keeps lone ones), and a match is the code
      units of the code points matched ([encode]).  The expression is kept
      as a term of a small regex syntax and run by a backtracking matcher
      with the priorities of the JavaScript one (ordered alternation, greedy
      quantifiers, negative lookahead); [matchAll] is the scan of a global
      regex.
    - The class [\s] is the one of ECMAScript (WhiteSpace and
      LineTerminator).  The property [\p{Lu}] and the methods [toUpperCase]
      and [toLowerCase] come from the Unicode tables of the engine, which
      are no part of the repository: on ASCII they are written out ([A-Z],
      and the swap of [a-z] and [A-Z]), beyond ASCII they are the fields of
      a record [Unicode], with the three facts about them that the proofs
      use.
    - [s[0].toUpperCase()] raises a [TypeError] when [s] is empty, so the
      formatters return a [result]. *)

From Stdlib Require Import NArith Ascii String List Arith Bool Lia.
Import ListNotations.

(** ** Code units, code points and strings *)

Definition code := N.

Definition str := list code.

(** A string literal of the source. *)
Definition lit (s : string) : str := map N_of_ascii (list_ascii_of_string s).

Open Scope N_scope.

Definition between (lo hi v : code) : bool := N.leb lo v && N.leb v hi.

Definition isAscii (v : code) : bool := N.ltb v 128.

(** The letters [A-Z]. *)
Definition isAZ (v : code) : bool := between 65 90 v.

(** The letters [a-z]. *)
Definition isLl (v : code) : bool := between 97 122 v.

(** The decimal digits. *)
Definition isDigit (v : code) : bool := between 48 57 v.

(** The ASCII letters. *)
Definition isLetter (v : code) : bool := isAZ v || isLl v.

(** [\s]: U+0009 to U+000D, U+0020, U+00A0, U+1680, U+2000 to U+200A,
    U+2028, U+2029, U+202F, U+205F, U+3000 and U+FEFF. *)
Definition isWhiteSpace (v : code) : bool :=
  between 9 13 v || N.eqb v 32 || N.eqb v 160 || N.eqb v 5760 ||
  between 8192 8202 v || between 8232 8233 v || N.eqb v 8239 ||
  N.eqb v 8287 || N.eqb v 12288 || N.eqb v 65279.

Definition space : code := 32%N.
Definition dash : code := 45%N.
Definition underscore : code := 95%N.
Definition tab : code := 9%N.

Definition isUnderscore (v : code) : bool := N.eqb underscore v.

Definition isSpace (v : code) : bool := N.eqb space v.

(** The delimiters the regular expression excludes from every piece:
    underscore, dash and white space. *)
Definition isDelim (v : code) : bool :=
  N.eqb underscore v || N.eqb dash v || isWhiteSpace v.

(** The delimiters the specification names: space, dash and underscore. *)
Definition isNamedDelim (v : code) : bool :=
  N.eqb space v || N.eqb dash v || N.eqb underscore v.

(** The case mappings of ASCII. *)
Definition toUpperChar (v : code) : code :=
  if isLl v then (v - 32)%N else v.

Definition toLowerChar (v : code) : code :=
  if isAZ v then (v + 32)%N else v.

(** A character that the ASCII uppercasing leaves alone. *)
Definition upperFixed (v : code) : bool := N.eqb (toUpperChar v) v.

Definition isHigh (v : code) : bool := between 55296 56319 v.

Definition isLow (v : code) : bool := between 56320 57343 v.

Definition isSurrogate (v : code) : bool := between 55296 57343 v.

(** A code point as the string holds it: one code unit, or a high and a low
    surrogate. *)
Inductive cp :=
| Unit (u : code)
| Pair (h l : code).

Definition cp_val (c : cp) : code :=
  match c with
  | Unit u => u
  | Pair h l => (65536 + (h - 55296) * 1024 + (l - 56320))%N
  end.

Close Scope N_scope.

(** StringToCodePoints: a high surrogate and the low surrogate after it are
    one code point, any other code unit is a code point of its own. *)
Fixpoint decode (s : str) : list cp :=
  match s with
  | [] => []
  | h :: t =>
      match t with
      | l :: t' =>
          if isHigh h && isLow l then Pair h l :: decode t'
          else Unit h :: decode t
      | [] => [Unit h]
      end
  end.

Definition encode_cp (c : cp) : str :=
  match c with
  | Unit u => [u]
  | Pair h l => [h; l]
  end.

(** The code units of a list of code points. *)
Definition encode (l : list cp) : str := flat_map encode_cp l.

(** A list of code points as [decode] gives them: the surrogates of a pair
    are a high and a low one, and no lone high surrogate stands before a
    lone low one. *)
Fixpoint canonical (l : list cp) : bool :=
  match l with
  | [] => true
  | c :: t =>
      match c with
      | Pair h l' => isHigh h && isLow l'
      | Unit h =>
          match t with
          | Unit l' :: _ => negb (isHigh h && isLow l')
          | _ => true
          end
      end && canonical t
  end.

(** [===] on strings. *)
Fixpoint str_eqb (a b : str) : bool :=
  match a, b with
  | [], [] => true
  | x :: a', y :: b' => N.eqb x y && str_eqb a' b'
  | _, _ => false
  end.

(** [Array.prototype.join]. *)
Fixpoint join {A} (sep : list A) (l : list (list A)) : list A :=
  match l with
  | [] => []
  | [x] => x
  | x :: rest => x ++ sep ++ join sep rest
  end.

Fixpoint takeWhile {A} (p : A -> bool) (s : list A) : list A :=
  match s with
  | c :: s' => if p c then c :: takeWhile p s' else []
  | [] => []
  end.

Fixpoint dropWhile {A} (p : A -> bool) (s : list A) : list A :=
  match s with
  | c :: s' => if p c then dropWhile p s' else s
  | [] => []
  end.

(** The input is empty or starts with a character that satisfies [p]. *)
Definition starts_with {A} (p : A -> bool) (s : list A) : bool :=
  match s with
  | [] => true
  | c :: _ => p c
  end.

(** ** The Unicode tables of the engine *)

(** What the program takes from the engine beyond ASCII: the code points of
    general category Lu, and the full case conversions of strings.  The
    three facts are facts of the Unicode character database: no uppercase
    letter is white space, and a case conversion brings no underscore, dash
    or white space into a string. *)
Record Unicode := {
  LuHigh : code -> bool;
  upperU : str -> str;
  lowerU : str -> str;
  LuHigh_not_space : forall v, LuHigh v = true -> isWhiteSpace v = false;
  upperU_delim :
    forall s d, isDelim d = true -> List.In d (upperU s) -> List.In d s;
  lowerU_delim :
    forall s d, isDelim d = true -> List.In d (lowerU s) -> List.In d s
}.

(** Tables without any cased character beyond ASCII: an instance, on which
    results are evaluated; the result on an ASCII input is the same for all
    tables. *)
Definition plain : Unicode := {|
  LuHigh := fun _ => false;
  upperU := fun s => s;
  lowerU := fun s => s;
  LuHigh_not_space := fun v H => match Bool.diff_false_true H with end;
  upperU_delim := fun s d _ H => H;
  lowerU_delim := fun s d _ H => H
|}.

(** ** Regular expressions *)

(** The members of a character class. *)
Inductive item :=
| Chr (c : code)       (* a literal or escaped character *)
| UnicodeLu            (* \p{Lu} *)
| WhiteSpace.          (* \s *)

(** One-character matchers: [[...]] and [[^...]]. *)
Inductive cset :=
| OneOf (l : list item)
| NoneOf (l : list item).

Inductive regex :=
| One (cs : cset)              (* cs *)
| Many1 (cs : cset)            (* cs+ *)
| Many0 (cs : cset)            (* cs* *)
| Seq (r1 r2 : regex)          (* r1 r2 *)
| Alt (r1 r2 : regex)          (* r1|r2 *)
| NotAhead (r : regex).        (* (?!r) *)

(** The class [[^\p{Lu}_\-\s]]. *)
Definition notUpperOrDelim : cset :=
  NoneOf [UnicodeLu; Chr underscore; Chr dash; WhiteSpace].

(** [/[^\p{Lu}_\-\s]+|\p{Lu}+(?![^\p{Lu}_\-\s])|\p{Lu}[^\p{Lu}_\-\s]*/gu] *)
Definition regexp : regex :=
  Alt (Many1 notUpperOrDelim)
      (Alt (Seq (Many1 (OneOf [UnicodeLu])) (NotAhead (One notUpperOrDelim)))
           (Seq (One (OneOf [UnicodeLu])) (Many0 notUpperOrDelim))).

Definition orElse {R} (a b : option R) : option R :=
  match a with
  | Some x => Some x
  | None => b
  end.

(** The greedy loop of [cs*]: take one more character when possible, and
    fall back to stopping here when the rest of the pattern then fails.
    The continuation [k] gets the characters consumed and the input left. *)
Fixpoint greedy {A R} (p : A -> bool) (s : list A)
         (k : list A -> list A -> option R) : option R :=
  match s with
  | c :: s' =>
      if p c
      then orElse (greedy p s' (fun m rest => k (c :: m) rest)) (k [] s)
      else k [] s
  | [] => k [] []
  end.

(** The candidates of a greedy loop, longest first: the first [n], [n-1],
    ..., [0] characters of [s]. *)
Fixpoint tries {A R} (k : list A -> list A -> option R) (n : nat)
         (s : list A) : option R :=
  orElse (k (firstn n s) (skipn n s))
         (match n with
          | O => None
          | S n' => tries k n' s
          end).

(** The outcome of a call: a value, or the [TypeError] raised by a method
    call on [undefined]. *)
Inductive result (A : Type) : Type :=
| Ok (a : A)
| TypeError.

Arguments Ok {A} a.
Arguments TypeError {A}.

Definition bind {A B} (r : result A) (f : A -> result B) : result B :=
  match r with
  | Ok a => f a
  | TypeError => TypeError
  end.

Notation "x <- r ;; k" := (bind r (fun x => k))
  (at level 61, r at next level, right associativity).

(** A function applied to the value of a call that did not raise. *)
Definition result_map {A B} (f : A -> B) (r : result A) : result B :=
  x <- r ;; Ok (f x).

(** [Array.prototype.map] with a callback [(s, i) => ...] that may raise:
    elements are visited in order, starting at index [i]. *)
Fixpoint map_from {A B} (f : A -> nat -> result B) (i : nat) (l : list A)
  : result (list B) :=
  match l with
  | [] => Ok []
  | x :: l' =>
      y <- f x i ;;
      ys <- map_from f (S i) l' ;;
      Ok (y :: ys)
  end.

Definition map_result {A B} (f : A -> nat -> result B) (l : list A)
  : result (list B) :=
  map_from f 0 l.

(** The argument of a formatter: [string | string[]]. *)
Inductive input :=
| Text (s : str)
| Pieces (p : list str).

(** The maximal runs of characters that are not separators, from left to
    right; [cur] holds the run being read, last character first. *)
Fixpoint runs_from {A} (sep : A -> bool) (cur : list A) (s : list A)
  : list (list A) :=
  match s with
  | [] => match cur with [] => [] | _ => [rev cur] end
  | c :: s' =>
      if sep c
      then match cur with
           | [] => runs_from sep [] s'
           | _ => rev cur :: runs_from sep [] s'
           end
      else runs_from sep (c :: cur) s'
  end.

Definition maximal_runs {A} (sep : A -> bool) (s : list A) : list (list A) :=
  runs_from sep [] s.

(** The input with the separators removed. *)
Definition strip {A} (sep : A -> bool) (s : list A) : list A :=
  filter (fun c => negb (sep c)) s.

(** Code units read as characters: right for a string without surrogates. *)
Definition uval (v : code) : code := v.

(** A string of ASCII characters. *)
Definition asciiStr (s : str) : Prop := Forall (fun v => isAscii v = true) s.

(** A string without surrogate code units: every code unit is a code
    point. *)
Definition bmpStr (s : str) : Prop :=
  Forall (fun v => isSurrogate v = false) s.

Section Cases.

(** The tables of the engine that runs the program. *)
Variable U : Unicode.

(** [\p{Lu}]. *)
Definition isLu (v : code) : bool :=
  if isAscii v then isAZ v else LuHigh U v.

(** [String.prototype.toUpperCase] and [toLowerCase]. *)
Definition toUpperCase (s : str) : str :=
  if forallb isAscii s then map toUpperChar s else upperU U s.

Definition toLowerCase (s : str) : str :=
  if forallb isAscii s then map toLowerChar s else lowerU U s.

(** A continuation character, by its value: neither an uppercase letter nor
    a delimiter. *)
Definition isContV (v : code) : bool := negb (isLu v || isDelim v).

(** *** The matcher

    The matcher reads characters of a type [A] through their code point
    value [val]: code points for the program, and code units for strings
    without surrogates, where the two coincide. *)

Definition item_has {A} (val : A -> code) (i : item) (a : A) : bool :=
  match i with
  | Chr x => N.eqb x (val a)
  | UnicodeLu => isLu (val a)
  | WhiteSpace => isWhiteSpace (val a)
  end.

Definition accepts {A} (val : A -> code) (cs : cset) (a : A) : bool :=
  match cs with
  | OneOf l => existsb (fun i => item_has val i a) l
  | NoneOf l => negb (existsb (fun i => item_has val i a) l)
  end.

(** Backtracking matcher anchored at the head of [s]. *)
Fixpoint run {A} (val : A -> code) {R : Type} (r : regex) (s : list A)
         (k : list A -> list A -> option R) {struct r} : option R :=
  match r with
  | One cs =>
      match s with
      | c :: s' => if accepts val cs c then k [c] s' else None
      | [] => None
      end
  | Many1 cs =>
      match s with
      | c :: s' =>
          if accepts val cs c
          then greedy (accepts val cs) s' (fun m rest => k (c :: m) rest)
          else None
      | [] => None
      end
  | Many0 cs => greedy (accepts val cs) s k
  | Seq r1 r2 =>
      run val r1 s
          (fun m1 s1 => run val r2 s1 (fun m2 s2 => k (m1 ++ m2) s2))
  | Alt r1 r2 => orElse (run val r1 s k) (run val r2 s k)
  | NotAhead r' =>
      match run val r' s (fun _ _ => Some tt) with
      | Some _ => None
      | None => k [] s
      end
  end.

(** The match of [r] at the head of [s], if there is one: [m[0]]. *)
Definition exec {A} (val : A -> code) (r : regex) (s : list A)
  : option (list A) :=
  run val r s (fun m _ => Some m).

(** [str.matchAll(r)] for a global [r], mapped to [m[0]]: the matches from
    left to right, each search starting where the last match ended ([skip]
    characters are still covered by it); an empty match moves on by one
    character. *)
Fixpoint matchAll_from {A} (val : A -> code) (r : regex) (s : list A)
         (skip : nat) : list (list A) :=
  match skip, s with
  | S n, _ :: s' => matchAll_from val r s' n
  | S _, [] => []
  | O, _ =>
      match exec val r s with
      | Some m =>
          m :: match s with
               | [] => []
               | _ :: s' => matchAll_from val r s' (length m - 1)
               end
      | None =>
          match s with
          | [] => []
          | _ :: s' => matchAll_from val r s' 0
          end
      end
  end.

Definition matchAll {A} (val : A -> code) (r : regex) (s : list A)
  : list (list A) :=
  matchAll_from val r s 0.

(** The matches of [regexp] in a list of characters. *)
Definition split {A} (val : A -> code) (s : list A) : list (list A) :=
  matchAll val regexp s.

(** ** [splitPieces] *)

Definition splitPieces (s : str) : list str :=
  map encode (split cp_val (decode s)).

(** ** The formatters *)

(** [Array.isArray(str) ? str : splitPieces(str)] *)
Definition pieces (x : input) : list str :=
  match x with
  | Pieces p => p
  | Text s => splitPieces s
  end.

(** [s[0].toUpperCase() + s.slice(1).toLowerCase()]; [s[0]] is [undefined]
    on the empty string, and the method call on it raises. *)
Definition capitalize (s : str) : result str :=
  match nth_error s 0 with
  | Some c => Ok (toUpperCase [c] ++ toLowerCase (skipn 1 s))
  | None => TypeError
  end.

(** The callback of [titleCase] and [pascalCase], and the last two branches
    of the one of [camelCase]. *)
Definition keepUpperOrCapitalize (s : str) : result str :=
  if str_eqb (toUpperCase s) s then Ok s else capitalize s.

Definition camelCase (x : input) : result str :=
  ps <- map_result
          (fun s i =>
             if i =? 0 then Ok (toLowerCase s) else keepUpperOrCapitalize s)
          (pieces x) ;;
  Ok (join [] ps).

Definition snakeCase (x : input) : str :=
  join [underscore] (map toLowerCase (pieces x)).

Definition kebabCase (x : input) : str :=
  join [dash] (map toLowerCase (pieces x)).

Definition titleCase (x : input) : result str :=
  ps <- map_result (fun s _ => keepUpperOrCapitalize s) (pieces x) ;;
  Ok (join [space] ps).

Definition pascalCase (x : input) : result str :=
  ps <- map_result (fun s _ => keepUpperOrCapitalize s) (pieces x) ;;
  Ok (join [] ps).

Definition constantCase (x : input) : str :=
  join [underscore] (map toUpperCase (pieces x)).

(** ** Vocabulary of the specification *)

(** The rendering of a piece in the words of the specification: unchanged
    when it equals its own uppercase form, else first character uppercased
    and remainder lowercased. *)
Definition spec_word (s : str) : str :=
  if str_eqb (toUpperCase s) s then s
  else match s with
       | c :: t => toUpperCase [c] ++ toLowerCase t
       | [] => []
       end.

(** camel in the words of the specification: piece 0 lowercased, the later
    pieces rendered, the empty joiner. *)
Definition spec_camel (p : list str) : str :=
  match p with
  | [] => []
  | first :: later => toLowerCase first ++ concat (map spec_word later)
  end.

Definition spec_title (p : list str) : str := join [space] (map spec_word p).

Definition spec_pascal (p : list str) : str := concat (map spec_word p).

(** ** The explicit scanner *)

(** The classes of the regular expression on a character. *)
Definition isLuOf {A} (val : A -> code) (a : A) : bool := isLu (val a).

Definition isDelimOf {A} (val : A -> code) (a : A) : bool := isDelim (val a).

(** A continuation character: one that [[^\p{Lu}_\-\s]] accepts. *)
Definition isCont {A} (val : A -> code) (a : A) : bool :=
  accepts val notUpperOrDelim a.

(** The lookahead [(?![^\p{Lu}_\-\s])] seen from the input left. *)
Definition ahead_ok {A} (val : A -> code) (rest : list A) : bool :=
  match rest with
  | x :: _ => negb (isCont val x)
  | [] => true
  end.

(** The match of [regexp] at the head of the input, as an explicit scanner
    with the three kinds of piece: a run of continuation characters; an
    uppercase run, given up by one letter when a continuation character
    follows it; an uppercase letter with the continuation run after it. *)
Definition token {A} (val : A -> code) (s : list A) : option (list A) :=
  match s with
  | [] => None
  | c :: s' =>
      if isCont val c then Some (c :: takeWhile (isCont val) s')
      else if isLuOf val c then
        if ahead_ok val (dropWhile (isLuOf val) s')
        then Some (c :: takeWhile (isLuOf val) s')
        else match length (takeWhile (isLuOf val) s') with
             | O => Some (c :: takeWhile (isCont val) s')
             | S n => Some (c :: firstn n s')
             end
      else None
  end.

(** The three shapes of a match of [regexp]: a first character that is no
    delimiter, followed by continuation characters only, or, after an
    uppercase letter, by uppercase letters only. *)
Definition is_piece {A} (val : A -> code) (w : list A) : bool :=
  match w with
  | [] => false
  | c :: t =>
      negb (isDelimOf val c) &&
      (forallb (isCont val) t || (isLuOf val c && forallb (isLuOf val) t))
  end.

(** * Properties *)

(** ** The tests of the repository *)

Example test_splitPieces :
  splitPieces (lit "a b c") = [lit "a"; lit "b"; lit "c"] /\
  splitPieces (lit "alphaBetaGamma") = [lit "alpha"; lit "Beta"; lit "Gamma"] /\
  splitPieces (lit "alpha_beta_gamma")
  = [lit "alpha"; lit "beta"; lit "gamma"] /\
  splitPieces (lit "alpha-beta-gamma")
  = [lit "alpha"; lit "beta"; lit "gamma"] /\
  splitPieces (lit "parseURL") = [lit "parse"; lit "URL"] /\
  splitPieces (lit "parseURLFunction")
  = [lit "parse"; lit "URL"; lit "Function"] /\
  splitPieces (lit "parse__beta") = [lit "parse"; lit "beta"].
Proof. repeat split. Qed.

Example test_camelCase :
  camelCase (Text (lit "hello world")) = Ok (lit "helloWorld") /\
  camelCase (Text (lit "hello-world")) = Ok (lit "helloWorld") /\
  camelCase (Text (lit "hello_world")) = Ok (lit "helloWorld") /\
  camelCase (Text (lit "parse URL Function")) = Ok (lit "parseURLFunction") /\
  camelCase (Pieces [lit "hello"; lit "world"]) = Ok (lit "helloWorld").
Proof. repeat split. Qed.

Example test_snakeCase :
  snakeCase (Text (lit "hello world")) = lit "hello_world" /\
  snakeCase (Text (lit "helloWorld")) = lit "hello_world" /\
  snakeCase (Text (lit "hello-world")) = lit "hello_world" /\
  snakeCase (Text (lit "parse URL Function")) = lit "parse_url_function" /\
  snakeCase (Pieces [lit "hello"; lit "world"]) = lit "hello_world".
Proof. repeat split. Qed.

Example test_kebabCase :
  kebabCase (Text (lit "hello world")) = lit "hello-world" /\
  kebabCase (Text (lit "helloWorld")) = lit "hello-world" /\
  kebabCase (Text (lit "hello_world")) = lit "hello-world" /\
  kebabCase (Text (lit "parse URL Function")) = lit "parse-url-function" /\
  kebabCase (Pieces [lit "hello"; lit "world"]) = lit "hello-world".
Proof. repeat split. Qed.

Example test_titleCase :
  titleCase (Text (lit "hello world")) = Ok (lit "Hello World") /\
  titleCase (Text (lit "helloWorld")) = Ok (lit "Hello World") /\
  titleCase (Text (lit "hello_world")) = Ok (lit "Hello World") /\
  titleCase (Text (lit "parse URL Function"))
  = Ok (lit "Parse URL Function") /\
  titleCase (Pieces [lit "hello"; lit "world"]) = Ok (lit "Hello World").
Proof. repeat split. Qed.

Example test_pascalCase :
  pascalCase (Text (lit "hello world")) = Ok (lit "HelloWorld") /\
  pascalCase (Text (lit "helloWorld")) = Ok (lit "HelloWorld") /\
  pascalCase (Text (lit "hello-world")) = Ok (lit "HelloWorld") /\
  pascalCase (Text (lit "parse URL Function")) = Ok (lit "ParseURLFunction") /\
  pascalCase (Pieces [lit "hello"; lit "world"]) = Ok (lit "HelloWorld").
Proof. repeat split. Qed.

Example test_constantCase :
  constantCase (Text (lit "hello world")) = lit "HELLO_WORLD" /\
  constantCase (Text (lit "helloWorld")) = lit "HELLO_WORLD" /\
  constantCase (Text (lit "hello-world")) = lit "HELLO_WORLD" /\
  constantCase (Text (lit "parse URL Function")) = lit "PARSE_URL_FUNCTION" /\
  constantCase (Pieces [lit "hello"; lit "world"]) = lit "HELLO_WORLD".
Proof. repeat split. Qed.


(** ** Characters *)

(** Comparisons of code values, read as arithmetic. *)
Ltac nbool :=
  unfold isLetter, isDelim, isNamedDelim, isWhiteSpace, isUnderscore,
    isSpace, isAZ, isLl, isDigit, isAscii, isHigh, isLow, isSurrogate,
    between, underscore, dash, space, tab in *;
  repeat rewrite ?andb_true_iff, ?orb_true_iff, ?andb_false_iff,
    ?orb_false_iff, ?negb_true_iff, ?negb_false_iff, ?N.leb_le, ?N.leb_gt,
    ?N.ltb_lt, ?N.ltb_ge, ?N.eqb_eq, ?N.eqb_neq in *.

Lemma isNamedDelim_isDelim v : isNamedDelim v = true -> isDelim v = true.
Proof. nbool. lia. Qed.

Lemma isDelim_not_surrogate v : isDelim v = true -> isSurrogate v = false.
Proof. nbool. lia. Qed.

Lemma isDelim_bmp v : isDelim v = true -> (v < 65536)%N.
Proof. nbool. lia. Qed.

Lemma isAscii_not_surrogate v : isAscii v = true -> isSurrogate v = false.
Proof. nbool. lia. Qed.

Lemma isHigh_surrogate v : isHigh v = true -> isSurrogate v = true.
Proof. nbool. lia. Qed.

Lemma isLow_surrogate v : isLow v = true -> isSurrogate v = true.
Proof. nbool. lia. Qed.

Lemma isHigh_not_low v : isHigh v = true -> isLow v = false.
Proof. nbool. lia. Qed.

Lemma isLetter_ascii v : isLetter v = true -> isAscii v = true.
Proof. nbool. lia. Qed.

Lemma isDelim_named v :
  isLetter v || isDigit v || isNamedDelim v = true ->
  isDelim v = isNamedDelim v.
Proof.
  intros H. destruct (isDelim v) eqn:Ed, (isNamedDelim v) eqn:En;
    try reflexivity; exfalso; revert H Ed En; nbool; lia.
Qed.

Lemma isLu_ascii v : isAscii v = true -> isLu v = isAZ v.
Proof. unfold isLu. now intros ->. Qed.

Lemma isLu_not_delim v : isLu v = true -> isDelim v = false.
Proof.
  unfold isLu. destruct (isAscii v) eqn:Ea.
  - revert Ea. nbool. lia.
  - intros H. apply LuHigh_not_space in H. revert Ea H. nbool. lia.
Qed.

Lemma isContV_not_delim v : isContV v = true -> isDelim v = false.
Proof.
  unfold isContV. rewrite negb_true_iff, orb_false_iff. now intros [_ H].
Qed.

Lemma isContV_not_Lu v : isContV v = true -> isLu v = false.
Proof.
  unfold isContV. rewrite negb_true_iff, orb_false_iff. now intros [H _].
Qed.

(** A fact about every ASCII character, by checking the 128 of them. *)
Lemma ascii_all (P : code -> bool) :
  forallb P (map N.of_nat (seq 0 128)) = true ->
  forall v, isAscii v = true -> P v = true.
Proof.
  intros H v Hv. rewrite forallb_forall in H. apply H.
  apply in_map_iff. exists (N.to_nat v). split.
  - apply N2Nat.id.
  - apply in_seq. revert Hv. nbool. lia.
Qed.


Lemma str_eqb_eq a : forall b, str_eqb a b = true <-> a = b.
Proof.
  induction a as [|x a IH]; intros [|y b]; simpl; split; intro H;
    try reflexivity; try discriminate.
  - apply andb_true_iff in H as [Hx Hab].
    apply N.eqb_eq in Hx. apply IH in Hab. now subst.
  - injection H as -> ->. apply andb_true_iff. split.
    + apply N.eqb_refl.
    + now apply IH.
Qed.

(** ** Lists *)

Section Lists.

Context {A : Type}.

Implicit Types (p q sep : A -> bool) (s a b m rest : list A).

Lemma takeWhile_dropWhile p s : takeWhile p s ++ dropWhile p s = s.
Proof.
  induction s as [|c s IH]; simpl; [reflexivity|].
  destruct (p c); simpl; [now rewrite IH | reflexivity].
Qed.

Lemma takeWhile_all p s : Forall (fun c => p c = true) (takeWhile p s).
Proof.
  induction s as [|c s IH]; simpl; [constructor|].
  destruct (p c) eqn:E; constructor; assumption.
Qed.

Lemma firstn_takeWhile p s : firstn (length (takeWhile p s)) s = takeWhile p s.
Proof.
  induction s as [|c s IH]; simpl; [reflexivity|].
  destruct (p c); simpl; [now rewrite IH | reflexivity].
Qed.

Lemma skipn_takeWhile p s : skipn (length (takeWhile p s)) s = dropWhile p s.
Proof.
  induction s as [|c s IH]; simpl; [reflexivity|].
  destruct (p c); simpl; [now rewrite IH | reflexivity].
Qed.

Lemma firstn_within p n :
  forall s, n <= length (takeWhile p s) ->
            Forall (fun c => p c = true) (firstn n s).
Proof.
  induction n as [|n IH]; intros s Hn; [constructor|].
  destruct s as [|c s]; simpl in *; [constructor|].
  destruct (p c) eqn:E; simpl in Hn; [|lia].
  constructor; [assumption | apply IH; lia].
Qed.

Lemma skipn_within p n :
  forall s, n < length (takeWhile p s) ->
            exists x r, skipn n s = x :: r /\ p x = true.
Proof.
  induction n as [|n IH]; intros s Hn; destruct s as [|c s]; simpl in *;
    try lia.
  - destruct (p c) eqn:E; simpl in Hn; [|lia]. now exists c, s.
  - destruct (p c) eqn:E; simpl in Hn; [|lia]. apply IH. lia.
Qed.

Lemma takeWhile_app_stop p a c rest :
  Forall (fun x => p x = true) a -> p c = false ->
  takeWhile p (a ++ c :: rest) = a.
Proof.
  intros Ha Hc. induction Ha as [|x a Hx _ IH]; simpl.
  - now rewrite Hc.
  - now rewrite Hx, IH.
Qed.

Lemma takeWhile_whole p a :
  Forall (fun x => p x = true) a -> takeWhile p a = a.
Proof.
  intros Ha. induction Ha as [|x a Hx _ IH]; simpl; [reflexivity|].
  now rewrite Hx, IH.
Qed.

Lemma dropWhile_app_stop p a c rest :
  Forall (fun x => p x = true) a -> p c = false ->
  dropWhile p (a ++ c :: rest) = c :: rest.
Proof.
  intros Ha Hc. induction Ha as [|x a Hx _ IH]; simpl.
  - now rewrite Hc.
  - now rewrite Hx, IH.
Qed.

Lemma dropWhile_whole p a :
  Forall (fun x => p x = true) a -> dropWhile p a = [].
Proof.
  intros Ha. induction Ha as [|x a Hx _ IH]; simpl; [reflexivity|].
  now rewrite Hx, IH.
Qed.

Lemma takeWhile_app_sep p a d b :
  p d = false -> takeWhile p (a ++ d :: b) = takeWhile p a.
Proof.
  intros Hd. induction a as [|c a IH]; simpl.
  - now rewrite Hd.
  - destruct (p c); [now rewrite IH | reflexivity].
Qed.

Lemma dropWhile_app_sep p a d b :
  p d = false -> dropWhile p (a ++ d :: b) = dropWhile p a ++ d :: b.
Proof.
  intros Hd. induction a as [|c a IH]; simpl.
  - now rewrite Hd.
  - destruct (p c); [now rewrite IH | reflexivity].
Qed.

Lemma takeWhile_length p s : length (takeWhile p s) <= length s.
Proof.
  induction s as [|c s IH]; simpl; [lia|]. destruct (p c); simpl; lia.
Qed.

Lemma dropWhile_length p s : length (dropWhile p s) <= length s.
Proof.
  induction s as [|c s IH]; simpl; [lia|]. destruct (p c); simpl; lia.
Qed.

Lemma dropWhile_Forall (P : A -> Prop) p s :
  Forall P s -> Forall P (dropWhile p s).
Proof.
  intros H. induction H as [|c s Hc Hs IH]; simpl; [constructor|].
  destruct (p c); [assumption | now constructor].
Qed.

Lemma takeWhile_Forall (P : A -> Prop) p s :
  Forall P s -> Forall P (takeWhile p s).
Proof.
  intros H. induction H as [|c s Hc Hs IH]; simpl; [constructor|].
  destruct (p c); [now constructor | constructor].
Qed.

Lemma dropWhile_head p s :
  starts_with (fun x => negb (p x)) (dropWhile p s) = true.
Proof.
  induction s as [|c s IH]; simpl; [reflexivity|].
  destruct (p c) eqn:E; [exact IH | simpl; now rewrite E].
Qed.

Lemma while_agree p q s :
  Forall (fun c => p c = q c) s ->
  takeWhile p s = takeWhile q s /\ dropWhile p s = dropWhile q s.
Proof.
  intros H. induction H as [|c s Hc _ [IHt IHd]]; simpl; [now split|].
  rewrite Hc. destruct (q c); [|now split].
  now rewrite IHt, IHd.
Qed.

Lemma forallb_all p l :
  forallb p l = true <-> Forall (fun c => p c = true) l.
Proof.
  induction l as [|c l IH]; simpl.
  - split; [constructor | reflexivity].
  - rewrite andb_true_iff, IH. split.
    + intros [Hc Hl]. now constructor.
    + intros H. inversion H. now split.
Qed.

Lemma forallb_takeWhile p s : forallb p (takeWhile p s) = true.
Proof. apply forallb_all, takeWhile_all. Qed.

Lemma Forall_impl_bool p q (x y : bool) l :
  (forall c, p c = x -> q c = y) ->
  Forall (fun c => p c = x) l -> Forall (fun c => q c = y) l.
Proof. intros H. apply Forall_impl. exact H. Qed.

Lemma strip_clean sep m :
  Forall (fun c => sep c = false) m -> strip sep m = m.
Proof.
  intros H. induction H as [|c m Hc _ IH]; simpl; [reflexivity|].
  rewrite Hc. simpl. now f_equal.
Qed.

Lemma strip_nodelim sep s : Forall (fun c => sep c = false) (strip sep s).
Proof.
  induction s as [|c s IH]; simpl; [constructor|].
  destruct (sep c) eqn:E; simpl; [assumption | now constructor].
Qed.

Lemma Forall_join (P : A -> Prop) (sp : list A) l :
  Forall P sp -> Forall (Forall P) l -> Forall P (join sp l).
Proof.
  intros Hsep H. induction H as [|w l Hw Hl IH]; [constructor|].
  destruct l as [|w2 l]; [exact Hw|].
  change (join sp (w :: w2 :: l)) with (w ++ sp ++ join sp (w2 :: l)).
  apply Forall_app. split; [assumption|].
  apply Forall_app. now split.
Qed.

Lemma Forall_concat (P : A -> Prop) l :
  Forall (Forall P) l -> Forall P (concat l).
Proof.
  intros H. induction H as [|w l Hw _ IH]; simpl; [constructor|].
  apply Forall_app. now split.
Qed.

Lemma Forall_concat_inv (P : A -> Prop) l :
  Forall P (concat l) -> Forall (Forall P) l.
Proof.
  induction l as [|w l IH]; simpl; intros H; [constructor|].
  apply Forall_app in H as [Hw Hl]. constructor; auto.
Qed.

Lemma join_empty l : join (@nil A) l = concat l.
Proof.
  induction l as [|x l IH]; [reflexivity|].
  destruct l as [|y l].
  - simpl. now rewrite app_nil_r.
  - change (join [] (x :: y :: l)) with (x ++ [] ++ join [] (y :: l)).
    rewrite IH. reflexivity.
Qed.

Lemma strip_join sep d l :
  sep d = true ->
  Forall (Forall (fun c => sep c = false)) l ->
  strip sep (join [d] l) = concat l.
Proof.
  intros Hd H. induction H as [|w l Hw _ IH]; [reflexivity|].
  destruct l as [|w2 l].
  - simpl. rewrite app_nil_r. now apply strip_clean.
  - change (join [d] (w :: w2 :: l)) with (w ++ [d] ++ join [d] (w2 :: l)).
    unfold strip in *. rewrite !filter_app, IH. cbn [filter concat].
    rewrite Hd. cbn [negb app]. f_equal. now apply strip_clean.
Qed.

Lemma runs_from_acc sep c cur :
  forall s,
    runs_from sep (c :: cur) s
    = (rev (c :: cur) ++ takeWhile (fun x => negb (sep x)) s)
        :: runs_from sep [] (dropWhile (fun x => negb (sep x)) s).
Proof.
  intros s. revert c cur.
  induction s as [|y s IH]; intros c cur.
  - simpl. now rewrite app_nil_r.
  - cbn [runs_from takeWhile dropWhile]. destruct (sep y) eqn:Hy.
    + cbn [negb runs_from]. rewrite Hy. now rewrite app_nil_r.
    + cbn [negb]. rewrite IH. cbn [rev]. now rewrite <- !app_assoc.
Qed.

Lemma maximal_runs_sep sep c s :
  sep c = true -> maximal_runs sep (c :: s) = maximal_runs sep s.
Proof. intros H. unfold maximal_runs. simpl. now rewrite H. Qed.

Lemma maximal_runs_word sep c s :
  sep c = false ->
  maximal_runs sep (c :: s)
  = (c :: takeWhile (fun x => negb (sep x)) s)
      :: maximal_runs sep (dropWhile (fun x => negb (sep x)) s).
Proof.
  intros H. unfold maximal_runs. cbn [runs_from]. rewrite H.
  now rewrite runs_from_acc.
Qed.

(** *** Greedy loops *)

Lemma orElse_None_r R (x : option R) : orElse x None = x.
Proof. now destruct x. Qed.

Lemma orElse_assoc R (x y z : option R) :
  orElse (orElse x y) z = orElse x (orElse y z).
Proof. now destruct x. Qed.

Lemma tries_cons R (k : list A -> list A -> option R) c s n :
  orElse (tries (fun m rest => k (c :: m) rest) n s) (k [] (c :: s))
  = tries k (S n) (c :: s).
Proof.
  induction n as [|n IH].
  - simpl. destruct (k [c] s); [reflexivity|]. simpl.
    now destruct (k [] (c :: s)).
  - change (tries (fun m rest => k (c :: m) rest) (S n) s)
      with (orElse (k (c :: firstn (S n) s) (skipn (S n) s))
                   (tries (fun m rest => k (c :: m) rest) n s)).
    rewrite orElse_assoc, IH. reflexivity.
Qed.

(** A greedy loop tries the longest run first and gives characters back one
    at a time. *)
Lemma greedy_tries R p s :
  forall k : list A -> list A -> option R,
    greedy p s k = tries k (length (takeWhile p s)) s.
Proof.
  induction s as [|c s IH]; intros k.
  - simpl. now rewrite orElse_None_r.
  - cbn [greedy takeWhile]. destruct (p c).
    + rewrite IH. apply tries_cons.
    + simpl. now rewrite orElse_None_r.
Qed.

Lemma greedy_ext R p q s :
  (forall c, p c = q c) ->
  forall k : list A -> list A -> option R, greedy p s k = greedy q s k.
Proof.
  intros E. induction s as [|c s IH]; intros k; simpl; [reflexivity|].
  now rewrite E, IH.
Qed.

Lemma tries_ext R (k k' : list A -> list A -> option R) s :
  (forall m rest, k m rest = k' m rest) ->
  forall n, tries k n s = tries k' n s.
Proof.
  intros E. induction n as [|n IH]; simpl.
  - now rewrite E.
  - now rewrite E, IH.
Qed.

Lemma tries_first R (k : list A -> list A -> option R) n s x :
  k (firstn n s) (skipn n s) = Some x -> tries k n s = Some x.
Proof. intros H. destruct n; simpl in *; now rewrite H. Qed.

End Lists.

(** ** The matcher on [regexp] *)

Arguments isCont : simpl never.
Arguments isLuOf : simpl never.
Arguments isDelimOf : simpl never.

Section Scanner.

Context {A : Type} (val : A -> code).

Local Abbreviation isLuA := (isLuOf val).
Local Abbreviation isContA := (isCont val).
Local Abbreviation isDelimA := (isDelimOf val).
Local Abbreviation aheadA := (ahead_ok val).
Local Abbreviation tokenA := (token val).
Local Abbreviation is_pieceA := (is_piece val).
Local Abbreviation splitA := (split val).

Lemma isCont_spec c : isContA c = negb (isLuA c || isDelimA c).
Proof.
  unfold isCont, isLuOf, isDelimOf, isDelim.
  cbn [accepts notUpperOrDelim existsb item_has].
  destruct (isLu (val c)), (N.eqb underscore (val c)),
    (N.eqb dash (val c)), (isWhiteSpace (val c)); reflexivity.
Qed.

Lemma isCont_value c : isContA c = isContV (val c).
Proof. apply isCont_spec. Qed.

Lemma isLuOf_not_delim c : isLuA c = true -> isDelimA c = false.
Proof. apply isLu_not_delim. Qed.

Lemma isLuOf_not_cont c : isLuA c = true -> isContA c = false.
Proof. intros H. rewrite isCont_spec, H. reflexivity. Qed.

Lemma isCont_not_delim c : isContA c = true -> isDelimA c = false.
Proof.
  rewrite isCont_spec, negb_true_iff, orb_false_iff. now intros [_ H].
Qed.

Lemma isCont_not_Lu c : isContA c = true -> isLuA c = false.
Proof.
  rewrite isCont_spec, negb_true_iff, orb_false_iff. now intros [H _].
Qed.

Lemma isDelimOf_not_cont d : isDelimA d = true -> isContA d = false.
Proof. intros H. rewrite isCont_spec, H. apply negb_false_iff, orb_true_r. Qed.

Lemma isDelimOf_not_Lu d : isDelimA d = true -> isLuA d = false.
Proof.
  intros H. destruct (isLuA d) eqn:E; [|reflexivity].
  apply isLuOf_not_delim in E. congruence.
Qed.

Lemma not_delim_cases c :
  isDelimA c = false -> isContA c = true \/ isLuA c = true.
Proof.
  intros H. rewrite isCont_spec, H.
  destruct (isLuA c); [now right | now left].
Qed.

Lemma accepts_Lu c : accepts val (OneOf [UnicodeLu]) c = isLuA c.
Proof. simpl. apply orb_false_r. Qed.

(** The second alternative's continuation: the lookahead decides. *)
Lemma lookahead_cont (c : A) (m rest : list A) :
  match
    match rest with
    | [] => None
    | x :: _ => if isContA x then Some tt else None
    end
  with
  | Some _ => None
  | None => Some ((c :: m) ++ [])
  end = if aheadA rest then Some (c :: m) else None.
Proof.
  rewrite app_nil_r. destruct rest as [|x rest]; simpl; [reflexivity|].
  now destruct (isContA x).
Qed.

(** The regular expression and the explicit scanner find the same match. *)
Lemma exec_token s : exec val regexp s = tokenA s.
Proof.
  destruct s as [|c s]; [reflexivity|].
  unfold exec, regexp. cbn [run].
  change (accepts val notUpperOrDelim) with isContA.
  rewrite accepts_Lu, (greedy_ext _ _ isLuA s accepts_Lu), !greedy_tries.
  rewrite (tries_ext _ _ _ s (lookahead_cont c)).
  unfold tokenA.
  destruct (isContA c) eqn:Hc.
  - simpl. erewrite tries_first; [reflexivity|].
    now rewrite firstn_takeWhile.
  - simpl. destruct (isLuA c) eqn:Hu; [|reflexivity].
    destruct (aheadA (dropWhile isLuA s)) eqn:Ha.
    + erewrite tries_first; [reflexivity|].
      now rewrite firstn_takeWhile, skipn_takeWhile, Ha.
    + destruct (length (takeWhile isLuA s)) as [|n] eqn:Hn.
      * apply length_zero_iff_nil in Hn.
        pose proof (takeWhile_dropWhile isLuA s) as Hs.
        rewrite Hn in Hs. simpl in Hs. rewrite Hs in Ha.
        cbn [tries firstn skipn]. rewrite Ha. cbn [orElse].
        erewrite tries_first; [reflexivity|].
        now rewrite firstn_takeWhile.
      * cbn [tries]. rewrite <- Hn, skipn_takeWhile, Ha. cbn [orElse].
        destruct (skipn_within isLuA n s) as (x & r & Hs & Hx); [lia|].
        erewrite tries_first; [reflexivity|].
        rewrite Hs. simpl. now rewrite (isLuOf_not_cont _ Hx).
Qed.

Lemma token_delim c s : isDelimA c = true -> tokenA (c :: s) = None.
Proof.
  intros H. simpl.
  destruct (isContA c) eqn:Hc.
  - apply isCont_not_delim in Hc. congruence.
  - destruct (isLuA c) eqn:Hu; [|reflexivity].
    apply isLuOf_not_delim in Hu. congruence.
Qed.

Lemma token_none c s : tokenA (c :: s) = None -> isDelimA c = true.
Proof.
  simpl. rewrite isCont_spec.
  destruct (isLuA c); simpl.
  - destruct (aheadA (dropWhile isLuA s)); [discriminate|].
    destruct (length (takeWhile isLuA s)); discriminate.
  - destruct (isDelimA c); simpl; [reflexivity | discriminate].
Qed.

(** A match is a non-empty prefix of the input without delimiters. *)
Lemma token_prefix s m :
  tokenA s = Some m ->
  m <> [] /\ (exists rest, s = m ++ rest) /\
  Forall (fun c => isDelimA c = false) m.
Proof.
  destruct s as [|c s]; [discriminate|]. simpl.
  destruct (isContA c) eqn:Hc.
  - intros [= <-]. split; [discriminate|]. split.
    + exists (dropWhile isContA s). simpl.
      now rewrite takeWhile_dropWhile.
    + constructor; [now apply isCont_not_delim|].
      eapply Forall_impl_bool; [apply isCont_not_delim | apply takeWhile_all].
  - destruct (isLuA c) eqn:Hu; [|discriminate].
    pose proof (isLuOf_not_delim _ Hu) as Hd.
    destruct (aheadA (dropWhile isLuA s)).
    + intros [= <-]. split; [discriminate|]. split.
      * exists (dropWhile isLuA s). simpl. now rewrite takeWhile_dropWhile.
      * constructor; [assumption|].
        eapply Forall_impl_bool; [apply isLuOf_not_delim | apply takeWhile_all].
    + destruct (length (takeWhile isLuA s)) as [|n] eqn:Hn.
      * intros [= <-]. split; [discriminate|]. split.
        -- exists (dropWhile isContA s). simpl.
           now rewrite takeWhile_dropWhile.
        -- constructor; [assumption|].
           eapply Forall_impl_bool;
             [apply isCont_not_delim | apply takeWhile_all].
      * intros [= <-]. split; [discriminate|]. split.
        -- exists (skipn n s). simpl. now rewrite firstn_skipn.
        -- constructor; [assumption|].
           eapply Forall_impl_bool; [apply isLuOf_not_delim|].
           apply firstn_within. lia.
Qed.

Lemma matchAll_from_skip r m rest :
  matchAll_from val r (m ++ rest) (length m) = matchAll_from val r rest 0.
Proof. induction m as [|x m IH]; [reflexivity | exact IH]. Qed.

Lemma split_delim c s :
  isDelimA c = true -> splitA (c :: s) = splitA s.
Proof.
  intros H. unfold split, matchAll. cbn [matchAll_from].
  now rewrite exec_token, (token_delim _ _ H).
Qed.

Lemma split_token m rest :
  tokenA (m ++ rest) = Some m ->
  splitA (m ++ rest) = m :: splitA rest.
Proof.
  intros H. destruct (token_prefix _ _ H) as (Hm & _ & _).
  destruct m as [|c m]; [congruence|].
  unfold split, matchAll.
  change ((c :: m) ++ rest) with (c :: (m ++ rest)) in *.
  cbn [matchAll_from]. rewrite exec_token, H. f_equal.
  replace (length (c :: m) - 1) with (length m) by (simpl; lia).
  apply matchAll_from_skip.
Qed.

(** Induction along the scan: a delimiter is skipped, a match is emitted. *)
Lemma split_ind (P : list A -> list (list A) -> Prop) :
  P [] [] ->
  (forall c s, isDelimA c = true ->
               P s (splitA s) -> P (c :: s) (splitA s)) ->
  (forall m rest, tokenA (m ++ rest) = Some m ->
                  P rest (splitA rest) ->
                  P (m ++ rest) (m :: splitA rest)) ->
  forall s, P s (splitA s).
Proof.
  intros Hnil Hdelim Htok s.
  remember (length s) as n eqn:Hn. revert s Hn.
  induction n as [n IH] using lt_wf_ind. intros s Hn.
  destruct s as [|c s]; [exact Hnil|].
  destruct (tokenA (c :: s)) as [m|] eqn:Ht.
  - destruct (token_prefix _ _ Ht) as (Hm & (rest & Hs) & _).
    rewrite Hs in Ht |- *. rewrite (split_token _ _ Ht).
    apply Htok; [assumption|].
    apply (IH (length rest)); [|reflexivity].
    subst n. rewrite Hs, length_app.
    destruct m; [congruence | simpl; lia].
  - apply token_none in Ht. rewrite (split_delim _ _ Ht).
    apply Hdelim; [assumption|].
    apply (IH (length s)); [subst n; simpl; lia | reflexivity].
Qed.

Lemma split_wellformed s :
  Forall (fun p => p <> [] /\ Forall (fun c => isDelimA c = false) p)
         (splitA s).
Proof.
  apply split_ind with (P := fun _ l =>
    Forall (fun p => p <> [] /\ Forall (fun c => isDelimA c = false) p) l).
  - constructor.
  - auto.
  - intros m rest Ht IH. destruct (token_prefix _ _ Ht) as (Hm & _ & Hd).
    constructor; auto.
Qed.

(** The pieces, concatenated, are the input without its delimiters. *)
Lemma concat_split s : concat (splitA s) = strip isDelimA s.
Proof.
  apply split_ind with (P := fun s l => concat l = strip isDelimA s).
  - reflexivity.
  - intros c s' Hc IH. simpl. now rewrite Hc.
  - intros m rest Ht IH. destruct (token_prefix _ _ Ht) as (_ & _ & Hd).
    simpl. unfold strip in *. rewrite filter_app, IH. f_equal.
    symmetry. apply (strip_clean _ _ Hd).
Qed.

(** A continuation character opens a piece that runs to the next uppercase
    letter or delimiter. *)
Lemma split_cont c s :
  isContA c = true ->
  splitA (c :: s)
  = (c :: takeWhile isContA s) :: splitA (dropWhile isContA s).
Proof.
  intros Hc.
  rewrite <- (takeWhile_dropWhile isContA s) at 1.
  apply (split_token (c :: takeWhile isContA s)).
  simpl. rewrite Hc. now rewrite takeWhile_dropWhile.
Qed.

(** An uppercase run followed by a continuation character gives up its last
    letter. *)
Lemma token_acronym c u f x rest :
  isLuA c = true -> Forall (fun y => isLuA y = true) u ->
  isLuA f = true -> isContA x = true ->
  tokenA (c :: u ++ f :: x :: rest) = Some (c :: u).
Proof.
  intros Hc Hu Hf Hx. simpl.
  rewrite (isLuOf_not_cont _ Hc), Hc.
  assert (Huf : Forall (fun y => isLuA y = true) (u ++ [f])).
  { apply Forall_app. split; [assumption | now constructor]. }
  replace (u ++ f :: x :: rest) with ((u ++ [f]) ++ x :: rest)
    by (now rewrite <- app_assoc).
  rewrite (takeWhile_app_stop isLuA _ x rest Huf (isCont_not_Lu _ Hx)).
  rewrite (dropWhile_app_stop isLuA _ x rest Huf (isCont_not_Lu _ Hx)).
  simpl. rewrite Hx. simpl.
  rewrite length_app. simpl. rewrite Nat.add_1_r.
  rewrite <- app_assoc.
  now rewrite firstn_app, Nat.sub_diag, firstn_all, app_nil_r.
Qed.

(** An uppercase letter followed by a continuation character opens a
    capitalized piece. *)
Lemma token_capitalized f x rest :
  isLuA f = true -> isContA x = true ->
  tokenA (f :: x :: rest) = Some (f :: x :: takeWhile isContA rest).
Proof.
  intros Hf Hx. cbn [tokenA]. rewrite (isLuOf_not_cont _ Hf), Hf.
  cbn [takeWhile dropWhile]. rewrite (isCont_not_Lu _ Hx).
  cbn [aheadA length]. now rewrite Hx.
Qed.

Lemma split_only_delims s :
  Forall (fun c => isDelimA c = true) s -> splitA s = [].
Proof.
  intros H. induction H as [|c s Hc _ IH]; [reflexivity|].
  now rewrite split_delim.
Qed.

Lemma token_app_delim a d b :
  isDelimA d = true -> tokenA (a ++ d :: b) = tokenA a.
Proof.
  intros Hd.
  pose proof (isDelimOf_not_cont _ Hd) as Hc.
  pose proof (isDelimOf_not_Lu _ Hd) as Hu.
  destruct a as [|c a]; [now apply token_delim|].
  cbn [app tokenA].
  rewrite !takeWhile_app_sep, dropWhile_app_sep by assumption.
  replace (aheadA (dropWhile isLuA a ++ d :: b))
    with (aheadA (dropWhile isLuA a)).
  - destruct (length (takeWhile isLuA a)) as [|n] eqn:Hn; [reflexivity|].
    rewrite firstn_app.
    pose proof (takeWhile_length isLuA a).
    replace (n - length a) with 0 by lia.
    now rewrite app_nil_r.
  - destruct (dropWhile isLuA a); simpl; [now rewrite Hc | reflexivity].
Qed.

Lemma split_app_sep a d b :
  isDelimA d = true ->
  splitA (a ++ d :: b) = splitA a ++ splitA b.
Proof.
  intros Hd.
  apply split_ind with
    (P := fun a l => splitA (a ++ d :: b) = l ++ splitA b).
  - now apply split_delim.
  - intros c s Hc IH. cbn [app]. now rewrite split_delim.
  - intros m rest Ht IH.
    rewrite <- app_assoc. cbn [app]. rewrite <- IH.
    apply split_token.
    rewrite <- Ht, app_assoc. now apply token_app_delim.
Qed.

Lemma token_is_piece s m : tokenA s = Some m -> is_pieceA m = true.
Proof.
  destruct s as [|c s]; [discriminate|]. simpl.
  destruct (isContA c) eqn:Hc.
  - intros [= <-]. simpl.
    now rewrite (isCont_not_delim _ Hc), forallb_takeWhile.
  - destruct (isLuA c) eqn:Hu; [|discriminate].
    destruct (aheadA (dropWhile isLuA s)).
    + intros [= <-]. simpl.
      rewrite (isLuOf_not_delim _ Hu), Hu, forallb_takeWhile.
      apply orb_true_r.
    + destruct (length (takeWhile isLuA s)) as [|n] eqn:Hn.
      * intros [= <-]. simpl.
        now rewrite (isLuOf_not_delim _ Hu), forallb_takeWhile.
      * intros [= <-]. simpl.
        rewrite (isLuOf_not_delim _ Hu), Hu.
        replace (forallb isLuA (firstn n s)) with true; [apply orb_true_r|].
        symmetry. apply forallb_all, firstn_within. lia.
Qed.

Lemma is_piece_token m : is_pieceA m = true -> tokenA m = Some m.
Proof.
  destruct m as [|c t]; [discriminate|]. cbn [is_pieceA].
  rewrite andb_true_iff, negb_true_iff. intros [Hd Hshape].
  apply orb_true_iff in Hshape as [Ht|Ht].
  - apply forallb_all in Ht.
    destruct (not_delim_cases _ Hd) as [Hc|Hu].
    + simpl. now rewrite Hc, takeWhile_whole.
    + simpl. rewrite (isLuOf_not_cont _ Hu), Hu.
      destruct t as [|x t]; [reflexivity|].
      inversion Ht as [|? ? Hx Ht']; subst.
      cbn [takeWhile dropWhile]. rewrite (isCont_not_Lu _ Hx).
      cbn [aheadA length]. rewrite Hx. cbn [negb].
      now rewrite takeWhile_whole.
  - apply andb_true_iff in Ht as [Hu Ht]. apply forallb_all in Ht.
    simpl. rewrite (isLuOf_not_cont _ Hu), Hu.
    now rewrite takeWhile_whole, dropWhile_whole.
Qed.

Lemma is_piece_atomic m : is_pieceA m = true -> splitA m = [m].
Proof.
  intros H. apply is_piece_token in H.
  rewrite <- (app_nil_r m) at 1. rewrite <- (app_nil_r m) in H at 1.
  now rewrite (split_token _ _ H).
Qed.

Lemma split_shapes s :
  Forall (fun p => is_pieceA p = true) (splitA s).
Proof.
  apply split_ind with
    (P := fun _ l => Forall (fun p => is_pieceA p = true) l).
  - constructor.
  - auto.
  - intros m rest Ht IH. constructor; [|assumption].
    eapply token_is_piece. exact Ht.
Qed.

Lemma split_join_atomic d ws :
  isDelimA d = true ->
  Forall (fun w => is_pieceA w = true) ws ->
  splitA (join [d] ws) = ws.
Proof.
  intros Hd H. induction H as [|w ws Hw _ IH]; [reflexivity|].
  destruct ws as [|w2 ws].
  - simpl. now apply is_piece_atomic.
  - change (join [d] (w :: w2 :: ws)) with (w ++ d :: join [d] (w2 :: ws)).
    rewrite split_app_sep by assumption.
    now rewrite IH, is_piece_atomic.
Qed.

Lemma is_piece_nodelim w :
  is_pieceA w = true -> Forall (fun c => isDelimA c = false) w.
Proof.
  destruct w as [|c t]; [discriminate|]. cbn [is_pieceA].
  rewrite andb_true_iff, negb_true_iff. intros [Hd Hshape].
  constructor; [assumption|].
  apply orb_true_iff in Hshape as [Ht|Ht].
  - apply forallb_all in Ht.
    eapply Forall_impl_bool; [apply isCont_not_delim | exact Ht].
  - apply andb_true_iff in Ht as [_ Ht]. apply forallb_all in Ht.
    eapply Forall_impl_bool; [apply isLuOf_not_delim | exact Ht].
Qed.

Lemma split_chars (P : A -> Prop) s :
  Forall P s -> Forall (Forall P) (splitA s).
Proof.
  apply split_ind with
    (P := fun s l => Forall P s -> Forall (Forall P) l).
  - constructor.
  - intros c s' _ IH H. inversion H. auto.
  - intros m rest _ IH H. apply Forall_app in H as [Hm Hrest].
    constructor; auto.
Qed.

Lemma not_cont_head rest :
  starts_with (fun x => negb (isContA x)) rest = true ->
  starts_with (fun x => isLuA x || isDelimA x) rest = true.
Proof.
  destruct rest as [|x rest]; [reflexivity|]. simpl.
  rewrite isCont_spec. now rewrite negb_involutive.
Qed.

(** After a match the input left is empty or starts with an uppercase
    letter or a delimiter. *)
Lemma token_split c s m :
  tokenA (c :: s) = Some m ->
  exists t rest,
    m = c :: t /\ s = t ++ rest /\
    starts_with (fun x => isLuA x || isDelimA x) rest = true.
Proof.
  simpl. destruct (isContA c) eqn:Hc.
  - intros [= <-]. exists (takeWhile isContA s), (dropWhile isContA s).
    split; [reflexivity|]. split; [now rewrite takeWhile_dropWhile|].
    apply not_cont_head, dropWhile_head.
  - destruct (isLuA c) eqn:Hu; [|discriminate].
    destruct (aheadA (dropWhile isLuA s)) eqn:Ha.
    + intros [= <-]. exists (takeWhile isLuA s), (dropWhile isLuA s).
      split; [reflexivity|]. split; [now rewrite takeWhile_dropWhile|].
      apply not_cont_head.
      destruct (dropWhile isLuA s); [reflexivity | exact Ha].
    + destruct (length (takeWhile isLuA s)) as [|n] eqn:Hn.
      * intros [= <-]. exists (takeWhile isContA s), (dropWhile isContA s).
        split; [reflexivity|]. split; [now rewrite takeWhile_dropWhile|].
        apply not_cont_head, dropWhile_head.
      * intros [= <-]. exists (firstn n s), (skipn n s).
        split; [reflexivity|]. split; [now rewrite firstn_skipn|].
        destruct (skipn_within isLuA n s) as (x & r & -> & Hx); [lia|].
        simpl. now rewrite Hx.
Qed.

Lemma upper_head rest :
  Forall (fun c => isDelimA c = false) rest ->
  starts_with (fun x => isLuA x || isDelimA x) rest = true ->
  starts_with isLuA rest = true.
Proof.
  intros H. destruct rest as [|x rest]; [reflexivity|].
  inversion H as [|? ? Hx _]; subst. simpl. now rewrite Hx, orb_false_r.
Qed.

(** In a string without delimiters every piece after the first starts with
    an uppercase letter. *)
Lemma later_pieces_upper s :
  Forall (fun c => isDelimA c = false) s ->
  Forall (fun p => starts_with isLuA p = true) (tl (splitA s)) /\
  (starts_with isLuA s = true ->
   Forall (fun p => starts_with isLuA p = true) (splitA s)).
Proof.
  apply split_ind with (P := fun s l =>
    Forall (fun c => isDelimA c = false) s ->
    Forall (fun p => starts_with isLuA p = true) (tl l) /\
    (starts_with isLuA s = true ->
     Forall (fun p => starts_with isLuA p = true) l)).
  - intros _. split; constructor.
  - intros c s' Hc _ H. inversion H; subst. congruence.
  - intros m rest Ht IH H. apply Forall_app in H as [Hm Hrest].
    destruct m as [|c t]; [now destruct (token_prefix _ _ Ht)|].
    destruct (token_split _ _ _ Ht) as (t' & rest' & [= <-] & Happ & Hhead).
    apply app_inv_head in Happ. subst rest'.
    pose proof (proj2 (IH Hrest) (upper_head _ Hrest Hhead)) as Hl.
    split; [exact Hl|].
    intros Hs. constructor; [exact Hs | exact Hl].
Qed.

(** The first piece of a string that starts with no delimiter starts with
    the first character of the string. *)
Lemma split_first c s :
  isDelimA c = false ->
  exists t l, splitA (c :: s) = (c :: t) :: l.
Proof.
  intros Hc. destruct (tokenA (c :: s)) as [m|] eqn:Ht.
  - destruct (token_split _ _ _ Ht) as (t & rest & -> & -> & _).
    exists t, (splitA rest).
    now apply (split_token (c :: t) rest).
  - apply token_none in Ht. congruence.
Qed.

End Scanner.

(** ** Code units and code points *)

Lemma decode_ind (P : list N -> Prop) :
  P [] ->
  (forall h, P [h]) ->
  (forall h l t, isHigh h && isLow l = true -> P t -> P (h :: l :: t)) ->
  (forall h l t, isHigh h && isLow l = false ->
                 P (l :: t) -> P (h :: l :: t)) ->
  forall s, P s.
Proof.
  intros Hnil Hone Hpair Hunit s.
  remember (length s) as n eqn:Hn. revert s Hn.
  induction n as [n IH] using lt_wf_ind. intros s Hn.
  destruct s as [|h [|l t]]; [exact Hnil | apply Hone |].
  destruct (isHigh h && isLow l) eqn:E.
  - apply Hpair; [exact E|].
    apply (IH (length t)); [subst n; simpl; lia | reflexivity].
  - apply Hunit; [exact E|].
    apply (IH (length (l :: t))); [subst n; simpl; lia | reflexivity].
Qed.

Lemma decode_pair h l t :
  isHigh h && isLow l = true -> decode (h :: l :: t) = Pair h l :: decode t.
Proof. intros E. cbn [decode]. now rewrite E. Qed.

Lemma decode_unit h l t :
  isHigh h && isLow l = false ->
  decode (h :: l :: t) = Unit h :: decode (l :: t).
Proof. intros E. cbn [decode]. now rewrite E. Qed.

(** The code units of the code points of a string are the string. *)
Lemma encode_decode s : encode (decode s) = s.
Proof.
  induction s as [| h | h l t E IH | h l t E IH] using decode_ind;
    try reflexivity.
  - rewrite decode_pair by assumption. simpl. now rewrite IH.
  - rewrite decode_unit by assumption.
    change (encode (Unit h :: decode (l :: t)))
      with (h :: encode (decode (l :: t))).
    now rewrite IH.
Qed.

Lemma encode_app a b : encode (a ++ b) = encode a ++ encode b.
Proof. apply flat_map_app. Qed.

Lemma encode_concat l : concat (map encode l) = encode (concat l).
Proof.
  induction l as [|w l IH]; [reflexivity|].
  simpl. now rewrite IH, encode_app.
Qed.

Lemma encode_map_Unit s : encode (map Unit s) = s.
Proof. induction s as [|c s IH]; [reflexivity|]. simpl. now rewrite IH. Qed.

Lemma encode_nonempty w : w <> [] -> encode w <> [].
Proof. destruct w as [|[u|h l] w]; [congruence | discriminate..]. Qed.

Lemma decode_length s : length (decode s) <= length s.
Proof.
  induction s as [| h | h l t E IH | h l t E IH] using decode_ind;
    try (simpl; lia).
  - rewrite decode_pair by assumption. simpl. lia.
  - rewrite decode_unit by assumption. simpl in *. lia.
Qed.

(** In a string without surrogates every code unit is a code point. *)
Lemma decode_bmp s : bmpStr s -> decode s = map Unit s.
Proof.
  intros H. induction H as [|h t Hh Ht IH]; [reflexivity|].
  destruct t as [|l t]; [reflexivity|].
  rewrite decode_unit, IH; [reflexivity|].
  apply andb_false_iff. left.
  destruct (isHigh h) eqn:E; [|reflexivity].
  apply isHigh_surrogate in E. congruence.
Qed.

Lemma asciiStr_bmp s : asciiStr s -> bmpStr s.
Proof.
  apply Forall_impl. intros v. apply isAscii_not_surrogate.
Qed.

Lemma not_surrogate_pair_l d l :
  isSurrogate d = false -> isHigh d && isLow l = false.
Proof.
  intros H. apply andb_false_iff. left.
  destruct (isHigh d) eqn:E; [|reflexivity].
  apply isHigh_surrogate in E. congruence.
Qed.

Lemma not_surrogate_pair_r h d :
  isSurrogate d = false -> isHigh h && isLow d = false.
Proof.
  intros H. apply andb_false_iff. right.
  destruct (isLow d) eqn:E; [|reflexivity].
  apply isLow_surrogate in E. congruence.
Qed.

Lemma decode_cons_sep d b :
  isSurrogate d = false -> decode (d :: b) = Unit d :: decode b.
Proof.
  intros H. destruct b as [|l b]; [reflexivity|].
  apply decode_unit. now apply not_surrogate_pair_l.
Qed.

(** A code unit that is no surrogate is a code point wherever it stands. *)
Lemma decode_app_sep a d b :
  isSurrogate d = false ->
  decode (a ++ d :: b) = decode a ++ Unit d :: decode b.
Proof.
  intros H.
  induction a as [| h | h l t E IH | h l t E IH] using decode_ind.
  - now apply decode_cons_sep.
  - cbn [app]. rewrite decode_unit by now apply not_surrogate_pair_r.
    now rewrite decode_cons_sep.
  - cbn [app]. rewrite !decode_pair by assumption. now rewrite IH.
  - cbn [app] in *. rewrite !decode_unit by assumption. now rewrite IH.
Qed.

Lemma Pair_not_delim h l : isDelimOf cp_val (Pair h l) = false.
Proof.
  unfold isDelimOf. destruct (isDelim (cp_val (Pair h l))) eqn:E;
    [|reflexivity].
  apply isDelim_bmp in E. unfold cp_val in E. lia.
Qed.

Lemma surrogate_not_delim v : isSurrogate v = true -> isDelim v = false.
Proof.
  intros H. destruct (isDelim v) eqn:E; [|reflexivity].
  apply isDelim_not_surrogate in E. congruence.
Qed.

(** Removing the delimiters from the code points or from the code units is
    the same. *)
Lemma strip_decode s :
  encode (strip (isDelimOf cp_val) (decode s)) = strip isDelim s.
Proof.
  induction s as [| h | h l t E IH | h l t E IH] using decode_ind.
  - reflexivity.
  - simpl. unfold isDelimOf. simpl. now destruct (isDelim h).
  - rewrite decode_pair by assumption.
    apply andb_true_iff in E as [Eh El].
    apply isHigh_surrogate, surrogate_not_delim in Eh.
    apply isLow_surrogate, surrogate_not_delim in El.
    unfold strip in *. cbn [filter]. rewrite Pair_not_delim, Eh, El.
    cbn [negb]. change (encode (Pair h l :: ?x)) with (h :: l :: encode x).
    now rewrite IH.
  - rewrite decode_unit by assumption.
    unfold strip in *. cbn [filter] in *.
    change (isDelimOf cp_val (Unit h)) with (isDelim h).
    destruct (isDelim h); cbn [negb]; [exact IH|].
    change (encode (Unit h :: ?x)) with (h :: encode x).
    now rewrite IH.
Qed.

Lemma canonical_decode s : canonical (decode s) = true.
Proof.
  induction s as [| h | h l t E IH | h l t E IH] using decode_ind;
    try reflexivity.
  - rewrite decode_pair by assumption. cbn [canonical]. now rewrite E, IH.
  - rewrite decode_unit by assumption. cbn [canonical]. rewrite IH.
    rewrite andb_true_r.
    destruct t as [|l' t]; simpl; [now rewrite E|].
    destruct (isHigh l && isLow l'); [reflexivity | now rewrite E].
Qed.

Lemma canonical_app a b :
  canonical (a ++ b) = true -> canonical a = true /\ canonical b = true.
Proof.
  induction a as [|c a IH]; [now split|].
  cbn [app canonical]. rewrite !andb_true_iff. intros [Hc Hab].
  destruct (IH Hab) as [Ha Hb]. repeat split; try assumption.
  destruct c as [h|h l]; [|exact Hc].
  destruct a as [|[l'|h' l'] a]; [reflexivity | exact Hc | reflexivity].
Qed.

Lemma canonical_tail c a : canonical (c :: a) = true -> canonical a = true.
Proof. cbn [canonical]. rewrite andb_true_iff. now intros [_ H]. Qed.

(** Canonical code points are the code points of their code units. *)
Lemma decode_encode w : canonical w = true -> decode (encode w) = w.
Proof.
  induction w as [|c w IH]; [reflexivity|].
  cbn [canonical]. rewrite andb_true_iff. intros [Hc Hw].
  specialize (IH Hw). destruct c as [h|h l].
  - change (encode (Unit h :: w)) with (h :: encode w).
    destruct w as [|c' w]; [reflexivity|].
    destruct c' as [l'|h' l'].
    + change (encode (Unit l' :: w)) with (l' :: encode w) in *.
      rewrite decode_unit by now apply negb_true_iff. now rewrite IH.
    + change (encode (Pair h' l' :: w)) with (h' :: l' :: encode w) in *.
      cbn [canonical] in Hw. rewrite !andb_true_iff in Hw.
      destruct Hw as [[Hh' _] _].
      rewrite decode_unit; [now rewrite IH|].
      apply andb_false_iff. right. now apply isHigh_not_low.
  - change (encode (Pair h l :: w)) with (h :: l :: encode w).
    rewrite decode_pair by assumption. now rewrite IH.
Qed.

(** ** The same scan on code units and on code points *)

Section Transport.

Context {A B : Type} (valA : A -> code) (valB : B -> code) (f : B -> A).

Hypothesis val_f : forall b, valA (f b) = valB b.

Lemma takeWhile_map (p : A -> bool) (s : list B) :
  takeWhile p (map f s) = map f (takeWhile (fun b => p (f b)) s).
Proof.
  induction s as [|c s IH]; simpl; [reflexivity|].
  destruct (p (f c)); simpl; [now rewrite IH | reflexivity].
Qed.

Lemma dropWhile_map (p : A -> bool) (s : list B) :
  dropWhile p (map f s) = map f (dropWhile (fun b => p (f b)) s).
Proof.
  induction s as [|c s IH]; simpl; [reflexivity|].
  destruct (p (f c)); simpl; [now rewrite IH | reflexivity].
Qed.

Lemma isCont_map b : isCont valA (f b) = isCont valB b.
Proof. rewrite !isCont_value. now rewrite val_f. Qed.

Lemma isLuOf_map b : isLuOf valA (f b) = isLuOf valB b.
Proof. unfold isLuOf. now rewrite val_f. Qed.

Lemma isDelimOf_map b : isDelimOf valA (f b) = isDelimOf valB b.
Proof. unfold isDelimOf. now rewrite val_f. Qed.

Lemma while_map_cont s :
  takeWhile (isCont valA) (map f s) = map f (takeWhile (isCont valB) s) /\
  dropWhile (isCont valA) (map f s) = map f (dropWhile (isCont valB) s).
Proof.
  rewrite takeWhile_map, dropWhile_map.
  destruct (while_agree (fun b => isCont valA (f b)) (isCont valB) s)
    as [-> ->]; [|now split].
  apply Forall_forall. intros b _. apply isCont_map.
Qed.

Lemma while_map_Lu s :
  takeWhile (isLuOf valA) (map f s) = map f (takeWhile (isLuOf valB) s) /\
  dropWhile (isLuOf valA) (map f s) = map f (dropWhile (isLuOf valB) s).
Proof.
  rewrite takeWhile_map, dropWhile_map.
  destruct (while_agree (fun b => isLuOf valA (f b)) (isLuOf valB) s)
    as [-> ->]; [|now split].
  apply Forall_forall. intros b _. apply isLuOf_map.
Qed.

Lemma ahead_ok_map s : ahead_ok valA (map f s) = ahead_ok valB s.
Proof. destruct s as [|b s]; [reflexivity|]. simpl. now rewrite isCont_map. Qed.

Lemma token_map s : token valA (map f s) = option_map (map f) (token valB s).
Proof.
  destruct s as [|c s]; [reflexivity|]. cbn [map token].
  rewrite isCont_map, isLuOf_map.
  destruct (while_map_cont s) as [-> _].
  destruct (while_map_Lu s) as [-> ->].
  rewrite ahead_ok_map, length_map.
  destruct (isCont valB c); [reflexivity|].
  destruct (isLuOf valB c); [|reflexivity].
  destruct (ahead_ok valB (dropWhile (isLuOf valB) s)); [reflexivity|].
  destruct (length (takeWhile (isLuOf valB) s)); [reflexivity|].
  simpl. now rewrite firstn_map.
Qed.

Lemma split_map s : split valA (map f s) = map (map f) (split valB s).
Proof.
  apply split_ind with
    (P := fun s l => split valA (map f s) = map (map f) l).
  - reflexivity.
  - intros c s' Hc IH. cbn [map]. rewrite split_delim; [exact IH|].
    now rewrite isDelimOf_map.
  - intros m rest Ht IH. rewrite map_app. cbn [map]. rewrite <- IH.
    apply split_token. rewrite <- map_app, token_map, Ht. reflexivity.
Qed.

End Transport.

(** On a string without surrogates [splitPieces] is the scan of the code
    units. *)
Lemma splitPieces_bmp s : bmpStr s -> splitPieces s = split uval s.
Proof.
  intros H. unfold splitPieces. rewrite (decode_bmp s H).
  rewrite (split_map cp_val uval Unit (fun _ => eq_refl)).
  rewrite map_map. rewrite <- (map_id (split uval s)) at 2.
  apply map_ext. apply encode_map_Unit.
Qed.

(** ** [splitPieces] on every string *)

Lemma splitPieces_concat s : concat (splitPieces s) = strip isDelim s.
Proof.
  unfold splitPieces. now rewrite encode_concat, concat_split, strip_decode.
Qed.

Lemma splitPieces_wellformed s :
  Forall (fun p => p <> [] /\ Forall (fun c => isDelim c = false) p)
         (splitPieces s).
Proof.
  assert (Hd : Forall (Forall (fun c => isDelim c = false)) (splitPieces s)).
  { apply Forall_concat_inv. rewrite splitPieces_concat.
    apply strip_nodelim. }
  assert (Hn : Forall (fun p => p <> []) (splitPieces s)).
  { unfold splitPieces. apply Forall_map.
    eapply Forall_impl; [|apply (split_wellformed cp_val)].
    intros w [Hw _]. now apply encode_nonempty. }
  revert Hd Hn. generalize (splitPieces s).
  induction l as [|w l IH]; intros Hd Hn; [constructor|].
  inversion Hd; inversion Hn; subst. constructor; auto.
Qed.

Lemma splitPieces_sep a d b :
  isDelim d = true ->
  splitPieces (a ++ d :: b) = splitPieces a ++ splitPieces b.
Proof.
  intros Hd. unfold splitPieces.
  rewrite decode_app_sep by now apply isDelim_not_surrogate.
  rewrite (split_app_sep cp_val) by exact Hd.
  apply map_app.
Qed.

Lemma splitPieces_delim d s :
  isDelim d = true -> splitPieces (d :: s) = splitPieces s.
Proof. intros Hd. apply (splitPieces_sep [] d s Hd). Qed.

Lemma splitPieces_only_delims s :
  Forall (fun c => isDelim c = true) s -> splitPieces s = [].
Proof.
  intros H. induction H as [|c s Hc _ IH]; [reflexivity|].
  now rewrite splitPieces_delim.
Qed.

Lemma split_canonical s :
  canonical s = true ->
  Forall (fun w => canonical w = true) (split cp_val s).
Proof.
  apply split_ind with (P := fun s l =>
    canonical s = true -> Forall (fun w => canonical w = true) l).
  - constructor.
  - intros c s' _ IH H. apply IH. now apply canonical_tail in H.
  - intros m rest _ IH H. apply canonical_app in H as [Hm Hr].
    constructor; auto.
Qed.

(** A piece of a string, split again, is that piece. *)
Lemma splitPieces_atomic s p :
  List.In p (splitPieces s) -> splitPieces p = [p].
Proof.
  unfold splitPieces at 1. intros H.
  apply in_map_iff in H as (w & <- & Hw).
  pose proof (split_shapes cp_val (decode s)) as Hs.
  pose proof (split_canonical _ (canonical_decode s)) as Hc.
  rewrite Forall_forall in Hs, Hc.
  unfold splitPieces. rewrite (decode_encode w (Hc w Hw)).
  now rewrite (is_piece_atomic cp_val w (Hs w Hw)).
Qed.

Lemma splitPieces_length s : length (splitPieces s) <= length s.
Proof.
  unfold splitPieces. rewrite length_map.
  pose proof (decode_length s) as Hd.
  enough (length (split cp_val (decode s)) <= length (decode s)) by lia.
  apply split_ind with (P := fun s l => length l <= length s).
  - simpl. lia.
  - intros c s' _ IH. simpl. lia.
  - intros m rest Ht IH. destruct (token_prefix cp_val _ _ Ht) as (Hm & _ & _).
    rewrite length_app. destruct m; [congruence | simpl in *; lia].
Qed.

(** ** Case conversions *)

Lemma toUpperChar_delim v : isDelim (toUpperChar v) = true -> toUpperChar v = v.
Proof.
  unfold toUpperChar. destruct (isLl v) eqn:E; [|reflexivity].
  revert E. nbool. lia.
Qed.

Lemma toLowerChar_delim v : isDelim (toLowerChar v) = true -> toLowerChar v = v.
Proof.
  unfold toLowerChar. destruct (isAZ v) eqn:E; [|reflexivity].
  revert E. nbool. lia.
Qed.

(** No case conversion brings a delimiter into a string. *)
Lemma toUpperCase_In d s :
  isDelim d = true -> List.In d (toUpperCase s) -> List.In d s.
Proof.
  intros Hd. unfold toUpperCase. destruct (forallb isAscii s).
  - intros H. apply in_map_iff in H as (c & Hc & Hin).
    rewrite <- Hc in Hd. apply toUpperChar_delim in Hd. congruence.
  - now apply upperU_delim.
Qed.

Lemma toLowerCase_In d s :
  isDelim d = true -> List.In d (toLowerCase s) -> List.In d s.
Proof.
  intros Hd. unfold toLowerCase. destruct (forallb isAscii s).
  - intros H. apply in_map_iff in H as (c & Hc & Hin).
    rewrite <- Hc in Hd. apply toLowerChar_delim in Hd. congruence.
  - now apply lowerU_delim.
Qed.

Lemma Forall_not_In (sep : code -> bool) s :
  (forall d, sep d = true -> ~ List.In d s) <->
  Forall (fun c => sep c = false) s.
Proof.
  rewrite Forall_forall. split.
  - intros H c Hc. destruct (sep c) eqn:E; [|reflexivity].
    now destruct (H c E).
  - intros H d Hd Hin. apply H in Hin. congruence.
Qed.

(** A class of delimiters that a string is free of, its case conversions
    are free of. *)
Lemma toUpperCase_keeps (sep : code -> bool) s :
  (forall d, sep d = true -> isDelim d = true) ->
  Forall (fun c => sep c = false) s ->
  Forall (fun c => sep c = false) (toUpperCase s).
Proof.
  intros Hsep H. apply Forall_not_In. intros d Hd Hin.
  apply toUpperCase_In in Hin; [|now apply Hsep].
  rewrite <- Forall_not_In in H. now apply (H d Hd).
Qed.

Lemma toLowerCase_keeps (sep : code -> bool) s :
  (forall d, sep d = true -> isDelim d = true) ->
  Forall (fun c => sep c = false) s ->
  Forall (fun c => sep c = false) (toLowerCase s).
Proof.
  intros Hsep H. apply Forall_not_In. intros d Hd Hin.
  apply toLowerCase_In in Hin; [|now apply Hsep].
  rewrite <- Forall_not_In in H. now apply (H d Hd).
Qed.

Lemma toUpperCase_ascii s : asciiStr s -> toUpperCase s = map toUpperChar s.
Proof.
  intros H. unfold toUpperCase.
  now rewrite (proj2 (forallb_all isAscii s) H).
Qed.

Lemma toLowerCase_ascii s : asciiStr s -> toLowerCase s = map toLowerChar s.
Proof.
  intros H. unfold toLowerCase.
  now rewrite (proj2 (forallb_all isAscii s) H).
Qed.

(** ** The formatters on an array of pieces *)

(** The uppercase test comes first and the empty string passes it, so the
    first character is only read from a non-empty piece. *)
Lemma keepUpperOrCapitalize_ok s : keepUpperOrCapitalize s = Ok (spec_word s).
Proof.
  unfold keepUpperOrCapitalize, spec_word.
  destruct (str_eqb (toUpperCase s) s) eqn:E; [reflexivity|].
  destruct s as [|c t]; [discriminate | reflexivity].
Qed.

Lemma map_from_ok A B (f : A -> nat -> result B) (g : A -> B) l :
  forall i,
    (forall x j, i <= j -> f x j = Ok (g x)) ->
    map_from f i l = Ok (map g l).
Proof.
  induction l as [|x l IH]; intros i H; [reflexivity|].
  cbn [map_from map]. rewrite (H x i) by lia. cbn [bind].
  rewrite (IH (S i)); [reflexivity|].
  intros y j Hj. apply H. lia.
Qed.

Lemma camelCase_pieces p : camelCase (Pieces p) = Ok (spec_camel p).
Proof.
  destruct p as [|w l]; [reflexivity|].
  unfold camelCase, map_result, pieces. cbn [map_from Nat.eqb bind].
  rewrite (map_from_ok _ _ _ spec_word).
  - cbn [bind]. now rewrite join_empty.
  - intros x j Hj. destruct j; [lia|]. apply keepUpperOrCapitalize_ok.
Qed.

Lemma titleCase_pieces p : titleCase (Pieces p) = Ok (spec_title p).
Proof.
  unfold titleCase, map_result, pieces.
  rewrite (map_from_ok _ _ _ spec_word); [reflexivity|].
  intros. apply keepUpperOrCapitalize_ok.
Qed.

Lemma pascalCase_pieces p : pascalCase (Pieces p) = Ok (spec_pascal p).
Proof.
  unfold pascalCase, map_result, pieces.
  rewrite (map_from_ok _ _ _ spec_word).
  - cbn [bind]. unfold spec_pascal. now rewrite join_empty.
  - intros. apply keepUpperOrCapitalize_ok.
Qed.

Lemma spec_word_cases w :
  spec_word w = w \/
  exists c t, w = c :: t /\ spec_word w = toUpperCase [c] ++ toLowerCase t.
Proof.
  unfold spec_word. destruct (str_eqb (toUpperCase w) w); [now left|].
  destruct w as [|c t]; [now left|]. right. now exists c, t.
Qed.

Lemma spec_word_keeps (sep : code -> bool) w :
  (forall d, sep d = true -> isDelim d = true) ->
  Forall (fun c => sep c = false) w ->
  Forall (fun c => sep c = false) (spec_word w).
Proof.
  intros Hsep H.
  destruct (spec_word_cases w) as [-> | (c & t & -> & ->)]; [assumption|].
  inversion H as [|? ? Hc Ht]; subst.
  apply Forall_app. split.
  - apply toUpperCase_keeps; [assumption | now constructor].
  - now apply toLowerCase_keeps.
Qed.

Lemma rendered_keep (sep : code -> bool) l :
  (forall d, sep d = true -> isDelim d = true) ->
  Forall (Forall (fun c => sep c = false)) l ->
  Forall (Forall (fun c => sep c = false)) (map spec_word l).
Proof.
  intros Hsep H. induction H as [|w l Hw _ IH]; simpl; constructor;
    [now apply spec_word_keeps | assumption].
Qed.

Lemma wellformed_weaken (sep : code -> bool) l :
  (forall c, sep c = true -> isDelim c = true) ->
  Forall (fun p => p <> [] /\ Forall (fun c => isDelim c = false) p) l ->
  Forall (Forall (fun c => sep c = false)) l.
Proof.
  intros Hq H. eapply Forall_impl; [|exact H].
  intros p [_ Hd].
  eapply Forall_impl; [|exact Hd]. intros c Hc. cbv beta in Hc.
  destruct (sep c) eqn:E; [|reflexivity]. apply Hq in E. congruence.
Qed.

Lemma count_join (d : code) ws :
  Forall (fun w => ~ List.In d w) ws ->
  count_occ N.eq_dec (join [d] ws) d = length ws - 1.
Proof.
  intros H. induction H as [|w ws Hw _ IH]; [reflexivity|].
  destruct ws as [|w2 ws].
  - simpl. now apply count_occ_not_In.
  - change (join [d] (w :: w2 :: ws)) with (w ++ [d] ++ join [d] (w2 :: ws)).
    rewrite count_occ_app. change ([d] ++ join [d] (w2 :: ws))
      with (d :: join [d] (w2 :: ws)).
    rewrite (count_occ_cons_eq N.eq_dec _ eq_refl), IH.
    rewrite (proj1 (@count_occ_not_In code N.eq_dec w d) Hw).
    cbn [length]. lia.
Qed.

(** ** Strings without uppercase letters *)

Lemma decode_nodelim w :
  Forall (fun c => isDelim c = false) w ->
  Forall (fun c => isDelimOf cp_val c = false) (decode w).
Proof.
  induction w as [| h | h l t E IH | h l t E IH] using decode_ind; intros H.
  - constructor.
  - inversion H; subst. now repeat constructor.
  - rewrite decode_pair by assumption. inversion H as [|? ? _ H']; subst.
    inversion H'; subst. constructor; [apply Pair_not_delim | auto].
  - rewrite decode_unit by assumption. inversion H; subst.
    constructor; [assumption | auto].
Qed.

Lemma decode_nonempty s : s <> [] -> decode s <> [].
Proof.
  destruct s as [|h [|l t]]; [congruence | discriminate |].
  intros _. cbn [decode]. destruct (isHigh h && isLow l); discriminate.
Qed.

(** A run of continuation characters is one piece. *)
Lemma splitPieces_run w :
  w <> [] ->
  Forall (fun c => isDelim c = false) w ->
  Forall (fun c => isLuOf cp_val c = false) (decode w) ->
  splitPieces w = [w].
Proof.
  intros Hw Hd Hu. unfold splitPieces.
  rewrite (is_piece_atomic cp_val (decode w)).
  - simpl. now rewrite encode_decode.
  - apply decode_nodelim in Hd. apply decode_nonempty in Hw.
    destruct (decode w) as [|c t]; [congruence|].
    inversion Hd as [|? ? Hc Ht]; inversion Hu as [|? ? Hc' Ht']; subst.
    cbn [is_piece]. rewrite Hc. cbn [negb andb].
    apply orb_true_iff. left. apply forallb_all.
    clear - Ht Ht'. induction Ht as [|x t Hx _ IH]; [constructor|].
    inversion Ht'; subst. constructor; [|auto].
    rewrite isCont_spec, Hx. now replace (isLuOf cp_val x) with false.
Qed.

Lemma nondelim_run_split c s :
  isDelim c = false ->
  let w := c :: takeWhile (fun x => negb (isDelim x)) s in
  let rest := dropWhile (fun x => negb (isDelim x)) s in
  c :: s = w ++ rest /\
  Forall (fun x => isDelim x = false) w /\
  (rest = [] \/ exists d r, rest = d :: r /\ isDelim d = true).
Proof.
  intros Hc w rest. subst w rest. repeat split.
  - simpl. now rewrite takeWhile_dropWhile.
  - constructor; [assumption|].
    eapply Forall_impl; [|apply takeWhile_all].
    intros x Hx. now apply negb_true_iff.
  - pose proof (dropWhile_head (fun x => negb (isDelim x)) s) as H.
    destruct (dropWhile (fun x => negb (isDelim x)) s) as [|d r];
      [now left|].
    right. exists d, r. split; [reflexivity|].
    simpl in H. now rewrite negb_involutive in H.
Qed.

(** * The claims *)

(** C1: [splitPieces] breaks the tie between an acronym and the capitalized
    word after it: "parseURLFunction" gives parse, URL, Function and
    "parseURL" gives parse, URL; in general an uppercase run [u] followed by
    an uppercase letter [f] that has a continuation character [x] after it is
    one piece without [f], and [f] opens the next piece, which runs over the
    continuation characters. The rule is stated twice: on the code points
    of any string, and on the code units of a string without surrogates. *)
Theorem splitPieces_acronym_tiebreak :
  splitPieces (lit "parseURLFunction")
  = [lit "parse"; lit "URL"; lit "Function"] /\
  splitPieces (lit "parseURL") = [lit "parse"; lit "URL"] /\
  (forall s u f x rest,
      decode s = u ++ f :: x :: rest ->
      u <> [] -> Forall (fun c => isLuOf cp_val c = true) u ->
      isLuOf cp_val f = true -> isCont cp_val x = true ->
      splitPieces s
      = encode u :: encode (f :: x :: takeWhile (isCont cp_val) rest)
          :: map encode (split cp_val (dropWhile (isCont cp_val) rest))) /\
  (forall u f x rest,
      u <> [] -> Forall (fun c => isLu c = true) u ->
      isLu f = true -> isContV x = true ->
      bmpStr (u ++ f :: x :: rest) ->
      splitPieces (u ++ f :: x :: rest)
      = u :: (f :: x :: takeWhile isContV rest)
          :: splitPieces (dropWhile isContV rest)).
Proof.
  split; [reflexivity|]. split; [reflexivity|]. split.
  { intros s u f x rest E Hu Hall Hf Hx. unfold splitPieces. rewrite E.
    destruct u as [|c u]; [congruence|].
    inversion Hall as [|? ? Hc Hrun]; subst.
    rewrite (split_token cp_val (c :: u) (f :: x :: rest)).
    - cbn [map]. f_equal. rewrite <- (map_cons encode). f_equal.
      rewrite <- (takeWhile_dropWhile (isCont cp_val) rest) at 1.
      apply (split_token cp_val (f :: x :: takeWhile (isCont cp_val) rest)).
      cbn [app]. rewrite takeWhile_dropWhile.
      now apply token_capitalized.
    - cbn [app]. now apply token_acronym. }
  intros u f x rest Hu Hall Hf Hx Hbmp.
  assert (Et : takeWhile isContV rest = takeWhile (isCont uval) rest /\
               dropWhile isContV rest = dropWhile (isCont uval) rest).
  { apply while_agree, Forall_forall. intros c _.
    symmetry. apply (isCont_value uval). }
  destruct Et as [-> ->].
  assert (Hrest : bmpStr (dropWhile (isCont uval) rest)).
  { apply dropWhile_Forall. apply Forall_app in Hbmp as [_ H].
    inversion H as [|? ? _ H']; subst. now inversion H'. }
  rewrite (splitPieces_bmp _ Hbmp), (splitPieces_bmp _ Hrest).
  destruct u as [|c u]; [congruence|].
  inversion Hall as [|? ? Hc Hrun]; subst.
  rewrite (split_token uval (c :: u) (f :: x :: rest)).
  - f_equal.
    rewrite <- (takeWhile_dropWhile (isCont uval) rest) at 1.
    apply (split_token uval (f :: x :: takeWhile (isCont uval) rest)).
    cbn [app]. rewrite takeWhile_dropWhile.
    apply token_capitalized; [exact Hf|].
    now rewrite isCont_value.
  - cbn [app]. apply token_acronym; try assumption.
    now rewrite isCont_value.
Qed.

(** C2: every piece of every input is non-empty and holds no space, dash or
    underscore (so runs of delimiters give no empty piece), and on an input
    of letters, digits and these delimiters the pieces, concatenated in
    order, are the input with the delimiters removed. *)
Theorem splitPieces_invariant s :
  Forall (fun p => p <> [] /\ Forall (fun c => isNamedDelim c = false) p)
         (splitPieces s) /\
  (Forall (fun c => isLetter c || isDigit c || isNamedDelim c = true) s ->
   concat (splitPieces s) = strip isNamedDelim s).
Proof.
  split.
  - eapply Forall_impl; [|apply splitPieces_wellformed].
    intros p [Hp Hd]. split; [assumption|].
    eapply Forall_impl; [|exact Hd].
    intros c Hc. cbv beta in Hc.
    destruct (isNamedDelim c) eqn:E; [|reflexivity].
    apply isNamedDelim_isDelim in E. congruence.
  - intros H. rewrite splitPieces_concat.
    induction H as [|c s' Hc _ IH]; simpl; [reflexivity|].
    now rewrite (isDelim_named _ Hc), IH.
Qed.

(** C3: each formatter on a string is the formatter on the pieces of the
    string, and on an array it uses the elements as they are: they are
    neither split again nor stripped of delimiters. *)
Theorem formatters_overload :
  (forall s,
      camelCase (Text s) = camelCase (Pieces (splitPieces s)) /\
      snakeCase (Text s) = snakeCase (Pieces (splitPieces s)) /\
      kebabCase (Text s) = kebabCase (Pieces (splitPieces s)) /\
      titleCase (Text s) = titleCase (Pieces (splitPieces s)) /\
      pascalCase (Text s) = pascalCase (Pieces (splitPieces s)) /\
      constantCase (Text s) = constantCase (Pieces (splitPieces s))) /\
  (forall p,
      snakeCase (Pieces p) = join [underscore] (map toLowerCase p) /\
      kebabCase (Pieces p) = join [dash] (map toLowerCase p) /\
      constantCase (Pieces p) = join [underscore] (map toUpperCase p) /\
      camelCase (Pieces p) = Ok (spec_camel p) /\
      titleCase (Pieces p) = Ok (join [space] (map spec_word p)) /\
      pascalCase (Pieces p) = Ok (concat (map spec_word p))) /\
  snakeCase (Pieces [lit "Hello World"; lit "foo-Bar_baz"])
  = lit "hello world_foo-bar_baz".
Proof.
  split; [|split].
  - intros s. repeat split.
  - intros p. repeat split.
    + apply camelCase_pieces.
    + apply titleCase_pieces.
    + apply pascalCase_pieces.
  - reflexivity.
Qed.

(** C4: on non-empty pieces [camelCase] gives the first piece lowercased,
    also when it is all uppercase, then each later piece unchanged when it
    equals its uppercase form and else with its first character uppercased
    and the remainder lowercased, with nothing in between. *)
Theorem camelCase_spec p :
  Forall (fun w => w <> []) p ->
  camelCase (Pieces p) = Ok (spec_camel p).
Proof. intros _. apply camelCase_pieces. Qed.

Lemma spec_word_no_letter s :
  asciiStr s -> Forall (fun c => isLetter c = false) s -> spec_word s = s.
Proof.
  intros Ha H. unfold spec_word. rewrite (toUpperCase_ascii s Ha).
  replace (map toUpperChar s) with s.
  - now rewrite (proj2 (str_eqb_eq s s) eq_refl).
  - clear Ha. induction H as [|c s Hc _ IH]; [reflexivity|].
    simpl. rewrite <- IH. f_equal.
    unfold toUpperChar. unfold isLetter in Hc.
    apply orb_false_iff in Hc as [_ Hl]. now rewrite Hl.
Qed.

(** C5: on non-empty pieces [titleCase] renders each piece unchanged when it
    equals its uppercase form, as an ASCII piece without letters does, and
    else with its first character uppercased and the remainder lowercased,
    and joins with one space; [pascalCase] renders the pieces the same way
    and joins with the empty string; the first piece is rendered as the
    others. *)
Theorem titleCase_pascalCase_spec p :
  Forall (fun w => w <> []) p ->
  titleCase (Pieces p) = Ok (spec_title p) /\
  pascalCase (Pieces p) = Ok (spec_pascal p) /\
  (forall w, toUpperCase w = w -> keepUpperOrCapitalize w = Ok w) /\
  (forall w, asciiStr w -> Forall (fun c => isLetter c = false) w ->
             keepUpperOrCapitalize w = Ok w).
Proof.
  intros _. split; [apply titleCase_pieces|].
  split; [apply pascalCase_pieces|]. split.
  - intros w E. unfold keepUpperOrCapitalize.
    now rewrite E, (proj2 (str_eqb_eq w w) eq_refl).
  - intros w Ha Hw. rewrite keepUpperOrCapitalize_ok. f_equal.
    now apply spec_word_no_letter.
Qed.

(** C6, amended: the delimiters are underscore, dash and white space (the
    class [\s]: space, tab, line feed, vertical tab, form feed, carriage
    return, no-break space and the other Unicode spaces); on an input whose
    code points hold no uppercase letter [splitPieces] returns the maximal
    runs of characters that are not delimiters, one piece per run. *)
Theorem splitPieces_maximal_runs s :
  Forall (fun c => isLuOf cp_val c = false) (decode s) ->
  splitPieces s = maximal_runs isDelim s.
Proof.
  remember (length s) as n eqn:Hn. revert s Hn.
  induction n as [n IH] using lt_wf_ind. intros s Hn Hs.
  destruct s as [|c s]; [reflexivity|].
  destruct (isDelim c) eqn:Hd.
  - rewrite splitPieces_delim, maximal_runs_sep by assumption.
    apply (IH (length s)); [subst n; simpl; lia | reflexivity |].
    rewrite decode_cons_sep in Hs by now apply isDelim_not_surrogate.
    now inversion Hs.
  - rewrite maximal_runs_word by assumption.
    destruct (nondelim_run_split c s Hd) as (Es & Hw & Hrest).
    cbv zeta in Es, Hw, Hrest. rewrite Es. rewrite Es in Hs.
    set (w := c :: takeWhile (fun x => negb (isDelim x)) s) in *.
    destruct Hrest as [Er | (d & r & Er & Hdd)]; rewrite Er in *.
    + rewrite app_nil_r in *. unfold maximal_runs. cbn [runs_from].
      apply splitPieces_run; [discriminate | assumption..].
    + rewrite decode_app_sep in Hs by now apply isDelim_not_surrogate.
      apply Forall_app in Hs as [Hs1 Hs2]. inversion Hs2; subst.
      rewrite splitPieces_sep, maximal_runs_sep by assumption.
      rewrite splitPieces_run by (try discriminate; assumption).
      cbn [app]. f_equal.
      apply (IH (length r)); [|reflexivity | assumption].
      pose proof (dropWhile_length (fun x => negb (isDelim x)) s) as Hl.
      rewrite Er in Hl. simpl in *. lia.
Qed.

(** C7: [splitPieces] is a total function; it returns no piece for the
    empty string and for a string of spaces, dashes and underscores; every
    formatter maps the empty string to the empty string. *)
Theorem splitPieces_and_formatters_on_empty :
  splitPieces [] = [] /\
  (forall s, Forall (fun c => isNamedDelim c = true) s ->
             splitPieces s = []) /\
  camelCase (Text []) = Ok [] /\
  snakeCase (Text []) = [] /\
  kebabCase (Text []) = [] /\
  titleCase (Text []) = Ok [] /\
  pascalCase (Text []) = Ok [] /\
  constantCase (Text []) = [].
Proof.
  split; [reflexivity|]. split; [|repeat split].
  intros s H. apply splitPieces_only_delims.
  eapply Forall_impl; [|exact H].
  intros c. apply isNamedDelim_isDelim.
Qed.

(** C10: no formatter raises on an array of strings, empty strings
    included: the empty string equals its uppercase form, so it is returned
    as it is, and the first character, whose absence would raise, is only
    read from a piece that differs from its uppercase form and hence is not
    empty.  [snakeCase], [kebabCase] and [constantCase] call no method that
    can raise. *)
Theorem formatters_never_raise p :
  (exists r, camelCase (Pieces p) = Ok r) /\
  (exists r, titleCase (Pieces p) = Ok r) /\
  (exists r, pascalCase (Pieces p) = Ok r) /\
  keepUpperOrCapitalize [] = Ok [] /\
  capitalize [] = TypeError /\
  (forall s, str_eqb (toUpperCase s) s = false ->
             s <> [] /\ capitalize s <> TypeError).
Proof.
  split; [eexists; apply camelCase_pieces|].
  split; [eexists; apply titleCase_pieces|].
  split; [eexists; apply pascalCase_pieces|].
  split; [reflexivity|]. split; [reflexivity|].
  intros s Hs. destruct s as [|c t]; [discriminate|].
  split; discriminate.
Qed.

(** * Further properties of the segmentation and of the formatters *)

Lemma isSpace_isDelim c : isSpace c = true -> isDelim c = true.
Proof. nbool. lia. Qed.

Lemma isUnderscore_isDelim c : isUnderscore c = true -> isDelim c = true.
Proof. nbool. lia. Qed.

(** X1: the match of the regular expression at the head of an input is the
    one of the explicit scanner: a run of continuation characters; or the
    uppercase run, whole before a delimiter or the end, and without its last
    letter before a continuation character; or one uppercase letter with the
    continuation run after it; and no match on a delimiter. *)
Theorem regexp_scanner {A} (val : A -> code) (s : list A) :
  exec val regexp s = token val s.
Proof. apply exec_token. Qed.

(** X2: on every input the pieces are non-empty, hold no underscore, dash
    or white space, and, concatenated in order, are the input without these
    characters: no other character is dropped, added or moved. *)
Theorem splitPieces_covers_input s :
  concat (splitPieces s) = strip isDelim s /\
  Forall (fun p => p <> [] /\ Forall (fun c => isDelim c = false) p)
         (splitPieces s) /\
  length (splitPieces s) <= length s.
Proof.
  split; [apply splitPieces_concat|]. split; [apply splitPieces_wellformed|].
  apply splitPieces_length.
Qed.

(** X3: a delimiter cuts the input in two independent parts: the pieces of
    [a], delimiter, [b] are the pieces of [a] followed by the pieces of
    [b]. *)
Theorem splitPieces_delimiter_cut a d b :
  isDelim d = true ->
  splitPieces (a ++ d :: b) = splitPieces a ++ splitPieces b.
Proof. apply splitPieces_sep. Qed.

(** X4: a piece is not split further: splitting a piece of any input gives
    that piece alone, so splitting every piece again changes nothing. *)
Theorem pieces_are_atomic s :
  (forall p, List.In p (splitPieces s) -> splitPieces p = [p]) /\
  flat_map splitPieces (splitPieces s) = splitPieces s.
Proof.
  split; [apply splitPieces_atomic|].
  pose proof (splitPieces_atomic s) as H.
  induction (splitPieces s) as [|w l IH]; [reflexivity|].
  simpl. rewrite (H w (or_introl eq_refl)), IH; [reflexivity|].
  intros p Hp. apply H. now right.
Qed.

Lemma not_In_lowered d l :
  isDelim d = true ->
  Forall (fun w => ~ List.In d w) l ->
  Forall (fun w => ~ List.In d w) (map toLowerCase l).
Proof.
  intros Hd H. induction H as [|w l Hw _ IH]; simpl; constructor;
    [|assumption].
  intros Hin. apply Hw. now apply (toLowerCase_In d).
Qed.

Lemma not_In_uppered d l :
  isDelim d = true ->
  Forall (fun w => ~ List.In d w) l ->
  Forall (fun w => ~ List.In d w) (map toUpperCase l).
Proof.
  intros Hd H. induction H as [|w l Hw _ IH]; simpl; constructor;
    [|assumption].
  intros Hin. apply Hw. now apply (toUpperCase_In d).
Qed.

(** X10: the joiner appears once between two pieces and nowhere else: when
    no piece holds an underscore or a dash, the snake and constant forms
    hold one underscore fewer than there are pieces, and the kebab form as
    many dashes. *)
Theorem joiner_count x :
  Forall (fun w => ~ List.In underscore w /\ ~ List.In dash w) (pieces x) ->
  count_occ N.eq_dec (snakeCase x) underscore = length (pieces x) - 1 /\
  count_occ N.eq_dec (constantCase x) underscore = length (pieces x) - 1 /\
  count_occ N.eq_dec (kebabCase x) dash = length (pieces x) - 1.
Proof.
  intros H.
  assert (Hu : Forall (fun w => ~ List.In underscore w) (pieces x))
    by (eapply Forall_impl; [|exact H]; now intros w [? _]).
  assert (Hd : Forall (fun w => ~ List.In dash w) (pieces x))
    by (eapply Forall_impl; [|exact H]; now intros w [_ ?]).
  unfold snakeCase, constantCase, kebabCase.
  rewrite !count_join.
  - now rewrite !length_map.
  - now apply not_In_lowered.
  - now apply not_In_uppered.
  - now apply not_In_lowered.
Qed.

Lemma split_pieces_free (sep : code -> bool) s :
  (forall c, sep c = true -> isDelim c = true) ->
  Forall (Forall (fun c => sep c = false)) (splitPieces s).
Proof.
  intros H. apply wellformed_weaken; [exact H|].
  apply splitPieces_wellformed.
Qed.

Lemma spec_camel_keeps (sep : code -> bool) l :
  (forall d, sep d = true -> isDelim d = true) ->
  Forall (Forall (fun c => sep c = false)) l ->
  Forall (fun c => sep c = false) (spec_camel l).
Proof.
  intros Hsep H. destruct H as [|w l Hw Hl]; [constructor|].
  cbn [spec_camel]. apply Forall_app. split.
  - now apply toLowerCase_keeps.
  - now apply Forall_concat, rendered_keep.
Qed.

Lemma spec_pascal_keeps (sep : code -> bool) l :
  (forall d, sep d = true -> isDelim d = true) ->
  Forall (Forall (fun c => sep c = false)) l ->
  Forall (fun c => sep c = false) (spec_pascal l).
Proof. intros Hsep H. now apply Forall_concat, rendered_keep. Qed.

(** X11: the camel and pascal forms of a string hold no underscore, dash or
    white space. *)
Theorem camelCase_pascalCase_no_delimiter s :
  (exists r, camelCase (Text s) = Ok r /\
             Forall (fun c => isDelim c = false) r) /\
  (exists r, pascalCase (Text s) = Ok r /\
             Forall (fun c => isDelim c = false) r).
Proof.
  pose proof (split_pieces_free isDelim s (fun c H => H)) as W.
  split.
  - exists (spec_camel (splitPieces s)).
    split; [apply (camelCase_pieces (splitPieces s))|].
    now apply spec_camel_keeps.
  - exists (spec_pascal (splitPieces s)).
    split; [apply (pascalCase_pieces (splitPieces s))|].
    now apply spec_pascal_keeps.
Qed.

(** X12: the title form without its spaces is the pascal form, on every
    string, and on every array whose elements hold no space. *)
Theorem titleCase_without_spaces :
  (forall p,
      Forall (fun w => w <> [] /\ Forall (fun c => isSpace c = false) w) p ->
      result_map (strip isSpace) (titleCase (Pieces p))
      = pascalCase (Pieces p)) /\
  (forall s,
      result_map (strip isSpace) (titleCase (Text s)) = pascalCase (Text s)).
Proof.
  assert (G : forall p,
             Forall (Forall (fun c => isSpace c = false)) p ->
             result_map (strip isSpace) (titleCase (Pieces p))
             = pascalCase (Pieces p)).
  { intros p H. rewrite titleCase_pieces, pascalCase_pieces.
    unfold result_map, spec_title, spec_pascal. cbn [bind]. f_equal.
    apply strip_join; [reflexivity|].
    apply rendered_keep; [apply isSpace_isDelim | assumption]. }
  split.
  - intros p H. apply G. eapply Forall_impl; [|exact H]. now intros w [_ ?].
  - intros s. apply (G (splitPieces s)).
    apply split_pieces_free, isSpace_isDelim.
Qed.

(** ** ASCII strings *)

Ltac char_cases :=
  unfold upperFixed, isContV, isLu, toUpperChar, toLowerChar in *;
  repeat match goal with
         | |- context [if ?b then _ else _] => destruct b eqn:?
         | H : context [if ?b then _ else _] |- _ => destruct b eqn:?
         end;
  nbool; try lia.

Lemma upper_lower_char v : toUpperChar (toLowerChar v) = toUpperChar v.
Proof. char_cases. Qed.

Lemma lower_upper_char v : toLowerChar (toUpperChar v) = toLowerChar v.
Proof. char_cases. Qed.

Lemma upper_upper_char v : toUpperChar (toUpperChar v) = toUpperChar v.
Proof. char_cases. Qed.

Lemma lower_lower_char v : toLowerChar (toLowerChar v) = toLowerChar v.
Proof. char_cases. Qed.

Lemma toUpperChar_ascii v : isAscii v = true -> isAscii (toUpperChar v) = true.
Proof. char_cases. Qed.

Lemma toLowerChar_ascii v : isAscii v = true -> isAscii (toLowerChar v) = true.
Proof. char_cases. Qed.

Lemma isLu_lower v : isAscii v = true -> isLu (toLowerChar v) = false.
Proof. char_cases. Qed.

Lemma isLl_upper v : isLl (toUpperChar v) = false.
Proof. char_cases. Qed.

Lemma isContV_lower v :
  isAscii v = true -> isDelim v = false -> isContV (toLowerChar v) = true.
Proof. char_cases. Qed.

Lemma isLu_upper v : isLetter v = true -> isLu (toUpperChar v) = true.
Proof. char_cases. Qed.

Lemma isLetter_not_delim v : isLetter v = true -> isDelim v = false.
Proof. nbool. lia. Qed.

Lemma isDelim_upper v : isDelim v = false -> isDelim (toUpperChar v) = false.
Proof. char_cases. Qed.

Lemma isLl_isContV v : isLl v = true -> isContV v = true.
Proof. char_cases. Qed.

Lemma isLl_lower_fixed v : isLl v = true -> toLowerChar v = v.
Proof. char_cases. Qed.

Lemma not_Lu_lower_fixed v :
  isAscii v = true -> isLu v = false -> toLowerChar v = v.
Proof. char_cases. Qed.

Lemma isLu_upperFixed v :
  isAscii v = true -> isLu v = true -> upperFixed v = true.
Proof. char_cases. Qed.

Lemma upperFixed_eq v : upperFixed v = true -> toUpperChar v = v.
Proof. unfold upperFixed. apply N.eqb_eq. Qed.

Lemma upperFixed_upper v : upperFixed (toUpperChar v) = true.
Proof. unfold upperFixed. apply N.eqb_eq, upper_upper_char. Qed.

Lemma ascii_map (f : code -> code) s :
  (forall v, isAscii v = true -> isAscii (f v) = true) ->
  asciiStr s -> asciiStr (map f s).
Proof.
  intros Hf H. induction H as [|c s Hc _ IH]; simpl; constructor; auto.
Qed.

Lemma toUpperCase_asciiStr s : asciiStr s -> asciiStr (toUpperCase s).
Proof.
  intros H. rewrite toUpperCase_ascii by assumption.
  now apply ascii_map; [apply toUpperChar_ascii|].
Qed.

Lemma toLowerCase_asciiStr s : asciiStr s -> asciiStr (toLowerCase s).
Proof.
  intros H. rewrite toLowerCase_ascii by assumption.
  now apply ascii_map; [apply toLowerChar_ascii|].
Qed.

Lemma toUpperCase_lower s :
  asciiStr s -> toUpperCase (toLowerCase s) = toUpperCase s.
Proof.
  intros H. rewrite (toUpperCase_ascii _ (toLowerCase_asciiStr s H)).
  rewrite toLowerCase_ascii, toUpperCase_ascii by assumption.
  rewrite map_map. apply map_ext, upper_lower_char.
Qed.

Lemma toLowerCase_upper s :
  asciiStr s -> toLowerCase (toUpperCase s) = toLowerCase s.
Proof.
  intros H. rewrite (toLowerCase_ascii _ (toUpperCase_asciiStr s H)).
  rewrite toLowerCase_ascii, toUpperCase_ascii by assumption.
  rewrite map_map. apply map_ext, lower_upper_char.
Qed.

Lemma toUpperCase_upper s :
  asciiStr s -> toUpperCase (toUpperCase s) = toUpperCase s.
Proof.
  intros H. rewrite (toUpperCase_ascii _ (toUpperCase_asciiStr s H)).
  rewrite toUpperCase_ascii by assumption.
  rewrite map_map. apply map_ext, upper_upper_char.
Qed.

Lemma toLowerCase_lower s :
  asciiStr s -> toLowerCase (toLowerCase s) = toLowerCase s.
Proof.
  intros H. rewrite (toLowerCase_ascii _ (toLowerCase_asciiStr s H)).
  rewrite toLowerCase_ascii by assumption.
  rewrite map_map. apply map_ext, lower_lower_char.
Qed.

Lemma toUpperCase_app a b :
  asciiStr a -> asciiStr b ->
  toUpperCase (a ++ b) = toUpperCase a ++ toUpperCase b.
Proof.
  intros Ha Hb. rewrite !toUpperCase_ascii; try assumption.
  - apply map_app.
  - apply Forall_app. now split.
Qed.

Lemma toLowerCase_app a b :
  asciiStr a -> asciiStr b ->
  toLowerCase (a ++ b) = toLowerCase a ++ toLowerCase b.
Proof.
  intros Ha Hb. rewrite !toLowerCase_ascii; try assumption.
  - apply map_app.
  - apply Forall_app. now split.
Qed.

Lemma toUpperCase_concat l :
  Forall asciiStr l -> toUpperCase (concat l) = concat (map toUpperCase l).
Proof.
  intros H. induction H as [|w l Hw Hl IH]; [reflexivity|].
  simpl. rewrite toUpperCase_app, IH; [reflexivity | assumption|].
  now apply Forall_concat.
Qed.

Lemma toLowerCase_concat l :
  Forall asciiStr l -> toLowerCase (concat l) = concat (map toLowerCase l).
Proof.
  intros H. induction H as [|w l Hw Hl IH]; [reflexivity|].
  simpl. rewrite toLowerCase_app, IH; [reflexivity | assumption|].
  now apply Forall_concat.
Qed.

(** On ASCII the first character is uppercased to one character. *)
Lemma capital_ascii c t :
  asciiStr (c :: t) ->
  toUpperCase [c] ++ toLowerCase t = toUpperChar c :: map toLowerChar t.
Proof.
  intros H. inversion H; subst.
  rewrite toUpperCase_ascii, toLowerCase_ascii by (try assumption;
    now constructor).
  reflexivity.
Qed.

Lemma spec_word_asciiStr w : asciiStr w -> asciiStr (spec_word w).
Proof.
  intros H.
  destruct (spec_word_cases w) as [-> | (c & t & -> & ->)]; [assumption|].
  inversion H; subst. apply Forall_app. split.
  - apply toUpperCase_asciiStr. now constructor.
  - now apply toLowerCase_asciiStr.
Qed.

Lemma toUpperCase_spec_word w :
  asciiStr w -> toUpperCase (spec_word w) = toUpperCase w.
Proof.
  intros H.
  destruct (spec_word_cases w) as [-> | (c & t & -> & ->)]; [reflexivity|].
  inversion H as [|? ? Hc Ht]; subst.
  assert (H1 : asciiStr [c]) by now constructor.
  rewrite toUpperCase_app
    by (now apply toUpperCase_asciiStr || now apply toLowerCase_asciiStr).
  rewrite toUpperCase_upper, toUpperCase_lower by assumption.
  now rewrite <- toUpperCase_app.
Qed.

Lemma toLowerCase_spec_word w :
  asciiStr w -> toLowerCase (spec_word w) = toLowerCase w.
Proof.
  intros H.
  destruct (spec_word_cases w) as [-> | (c & t & -> & ->)]; [reflexivity|].
  inversion H as [|? ? Hc Ht]; subst.
  assert (H1 : asciiStr [c]) by now constructor.
  rewrite toLowerCase_app
    by (now apply toUpperCase_asciiStr || now apply toLowerCase_asciiStr).
  rewrite toLowerCase_upper, toLowerCase_lower by assumption.
  now rewrite <- toLowerCase_app.
Qed.

Lemma spec_word_idempotent w :
  asciiStr w -> spec_word (spec_word w) = spec_word w.
Proof.
  intros H.
  destruct (spec_word_cases w) as [E | (c & t & -> & E)];
    [now rewrite E|].
  rewrite E, (capital_ascii c t H).
  inversion H as [|? ? Hc Ht]; subst.
  assert (H' : asciiStr (toUpperChar c :: map toLowerChar t)).
  { constructor; [now apply toUpperChar_ascii|].
    now apply ascii_map; [apply toLowerChar_ascii|]. }
  destruct (spec_word_cases (toUpperChar c :: map toLowerChar t))
    as [E' | (c' & t' & [= <- <-] & E')]; [exact E'|].
  rewrite E', (capital_ascii _ _ H').
  rewrite upper_upper_char, map_map. f_equal.
  apply map_ext, lower_lower_char.
Qed.

Lemma spec_word_nonempty w : asciiStr w -> w <> [] -> spec_word w <> [].
Proof.
  intros H Hw. destruct (spec_word_cases w) as [-> | (c & t & -> & ->)];
    [assumption|].
  rewrite (capital_ascii c t H). discriminate.
Qed.

(** *** Shapes of converted words *)

Lemma is_piece_nodelim_units w :
  is_piece uval w = true -> Forall (fun c => isDelim c = false) w.
Proof. apply (is_piece_nodelim uval). Qed.

Lemma cont_word_is_piece w :
  w <> [] -> Forall (fun c => isContV c = true) w -> is_piece uval w = true.
Proof.
  intros Hw H. destruct w as [|c t]; [congruence|].
  inversion H as [|? ? Hc Ht]; subst. cbn [is_piece].
  change (isDelimOf uval c) with (isDelim c).
  rewrite (isContV_not_delim _ Hc). cbn [negb andb].
  apply orb_true_iff. left. apply forallb_all.
  eapply Forall_impl; [|exact Ht]. intros x Hx.
  now rewrite (isCont_value uval).
Qed.

Lemma toLowerCase_is_piece w :
  asciiStr w -> w <> [] -> Forall (fun c => isDelim c = false) w ->
  is_piece uval (toLowerCase w) = true.
Proof.
  intros Ha Hw Hd. rewrite toLowerCase_ascii by assumption.
  apply cont_word_is_piece; [now destruct w|].
  clear Hw. induction Ha as [|c t Hc _ IH]; simpl; [constructor|].
  inversion Hd; subst. constructor; [now apply isContV_lower | auto].
Qed.

Lemma toUpperCase_is_piece w :
  w <> [] -> Forall (fun c => isLetter c = true) w ->
  is_piece uval (toUpperCase w) = true.
Proof.
  intros Hw H.
  assert (Ha : asciiStr w).
  { eapply Forall_impl; [|exact H]. apply isLetter_ascii. }
  rewrite toUpperCase_ascii by assumption.
  destruct w as [|c t]; [congruence|].
  inversion H as [|? ? Hc Ht]; subst.
  cbn [map is_piece].
  change (isDelimOf uval (toUpperChar c)) with (isDelim (toUpperChar c)).
  change (isLuOf uval (toUpperChar c)) with (isLu (toUpperChar c)).
  rewrite (isDelim_upper _ (isLetter_not_delim _ Hc)), (isLu_upper _ Hc).
  cbn [negb andb]. apply orb_true_iff. right. apply forallb_all.
  clear - Ht. induction Ht as [|x t Hx _ IH]; simpl; constructor;
    [now apply isLu_upper | assumption].
Qed.

Lemma spec_word_is_piece w :
  asciiStr w -> is_piece uval w = true -> is_piece uval (spec_word w) = true.
Proof.
  intros Ha H.
  destruct (spec_word_cases w) as [-> | (c & t & -> & ->)]; [assumption|].
  rewrite (capital_ascii c t Ha).
  pose proof (is_piece_nodelim_units _ H) as Hd.
  inversion Hd as [|? ? Hc Ht]; inversion Ha as [|? ? Hac Hat]; subst.
  cbn [is_piece].
  change (isDelimOf uval (toUpperChar c)) with (isDelim (toUpperChar c)).
  rewrite (isDelim_upper _ Hc). cbn [negb andb].
  apply orb_true_iff. left. apply forallb_all.
  clear - Ht Hat. induction Ht as [|x t Hx _ IH]; simpl; [constructor|].
  inversion Hat; subst. constructor; [|auto].
  rewrite (isCont_value uval). now apply isContV_lower.
Qed.

(** *** Splitting joined ASCII words *)

Lemma bmp_join d ws :
  isSurrogate d = false -> Forall bmpStr ws -> bmpStr (join [d] ws).
Proof. intros Hd H. apply Forall_join; [now constructor | exact H]. Qed.

Lemma splitPieces_join d ws :
  isDelim d = true ->
  Forall (fun w => bmpStr w /\ is_piece uval w = true) ws ->
  splitPieces (join [d] ws) = ws.
Proof.
  intros Hd H. rewrite splitPieces_bmp.
  - apply (split_join_atomic uval); [exact Hd|].
    eapply Forall_impl; [|exact H]. now intros w [_ ?].
  - apply bmp_join; [now apply isDelim_not_surrogate|].
    eapply Forall_impl; [|exact H]. now intros w [? _].
Qed.

Lemma pieces_sub (P : code -> Prop) s :
  Forall P s -> Forall (Forall P) (splitPieces s).
Proof.
  intros H. apply Forall_concat_inv. rewrite splitPieces_concat.
  unfold strip. apply Forall_forall. intros c Hc.
  apply filter_In in Hc as [Hc _]. rewrite Forall_forall in H. auto.
Qed.

Lemma splitPieces_shapes s :
  bmpStr s -> Forall (fun p => is_piece uval p = true) (splitPieces s).
Proof.
  intros H. rewrite (splitPieces_bmp s H). apply split_shapes.
Qed.

Lemma ascii_shapes s :
  asciiStr s ->
  Forall (fun p => asciiStr p /\ is_piece uval p = true) (splitPieces s).
Proof.
  intros H. pose proof (pieces_sub _ s H) as Ha.
  pose proof (splitPieces_shapes s (asciiStr_bmp s H)) as Hs.
  revert Ha Hs. generalize (splitPieces s).
  induction l as [|w l IH]; intros Ha Hs; [constructor|].
  inversion Ha; inversion Hs; subst. constructor; auto.
Qed.

Lemma Forall_map_in {A B} (P : B -> Prop) (Q : A -> Prop) (f : A -> B) l :
  (forall x, Q x -> P (f x)) -> Forall Q l -> Forall P (map f l).
Proof.
  intros Hf H. induction H as [|x l Hx _ IH]; simpl; constructor; auto.
Qed.

(** C8: kebab round trip: on non-empty pieces made of lowercase letters,
    none of them a delimiter, splitting the kebab string gives the pieces
    back. *)
Theorem kebabCase_roundtrip p :
  Forall (fun w => w <> [] /\
                   Forall (fun c => isLl c = true /\ isNamedDelim c = false) w)
         p ->
  splitPieces (kebabCase (Pieces p)) = p.
Proof.
  intros H. unfold kebabCase, pieces.
  assert (Hl : Forall (fun w => w <> [] /\
                               Forall (fun c => isLl c = true) w) p).
  { eapply Forall_impl; [|exact H]. intros w [Hw Hl]. split; [assumption|].
    eapply Forall_impl; [|exact Hl]. now intros c [Hc _]. }
  clear H.
  assert (Ha : forall w, Forall (fun c => isLl c = true) w -> asciiStr w).
  { intros w. apply Forall_impl. intros c Hc.
    apply isLetter_ascii. unfold isLetter. now rewrite Hc, orb_true_r. }
  replace (map toLowerCase p) with p.
  - apply splitPieces_join; [reflexivity|].
    eapply Forall_impl; [|exact Hl]. intros w [Hw Hc]. split.
    + apply asciiStr_bmp. auto.
    + apply cont_word_is_piece; [assumption|].
      eapply Forall_impl; [|exact Hc]. apply isLl_isContV.
  - induction Hl as [|w p [_ Hw] _ IH]; [reflexivity|].
    simpl. rewrite <- IH. f_equal.
    rewrite toLowerCase_ascii by auto.
    clear - Hw. induction Hw as [|c w Hc _ IH]; [reflexivity|].
    simpl. now rewrite <- IH, isLl_lower_fixed.
Qed.

Lemma toUpperCase_spec_camel p :
  Forall asciiStr p -> toUpperCase (spec_camel p) = concat (map toUpperCase p).
Proof.
  intros H. destruct H as [|w l Hw Hl]; [reflexivity|].
  assert (Hr : Forall asciiStr (map spec_word l))
    by (eapply Forall_map_in; [apply spec_word_asciiStr | exact Hl]).
  unfold spec_camel. rewrite toUpperCase_app.
  - rewrite toUpperCase_lower by assumption. cbn [map concat]. f_equal.
    rewrite toUpperCase_concat by assumption. rewrite map_map. f_equal.
    apply map_ext_in. intros x Hx. apply toUpperCase_spec_word.
    rewrite Forall_forall in Hl. auto.
  - now apply toLowerCase_asciiStr.
  - now apply Forall_concat.
Qed.

Lemma toUpperCase_spec_pascal p :
  Forall asciiStr p ->
  toUpperCase (spec_pascal p) = concat (map toUpperCase p).
Proof.
  intros H. unfold spec_pascal.
  rewrite toUpperCase_concat
    by (eapply Forall_map_in; [apply spec_word_asciiStr | exact H]).
  rewrite map_map. f_equal.
  apply map_ext_in. intros x Hx. apply toUpperCase_spec_word.
  rewrite Forall_forall in H. auto.
Qed.

Lemma toLowerCase_spec_camel p :
  Forall asciiStr p -> toLowerCase (spec_camel p) = concat (map toLowerCase p).
Proof.
  intros H. destruct H as [|w l Hw Hl]; [reflexivity|].
  assert (Hr : Forall asciiStr (map spec_word l))
    by (eapply Forall_map_in; [apply spec_word_asciiStr | exact Hl]).
  unfold spec_camel. rewrite toLowerCase_app.
  - rewrite toLowerCase_lower by assumption. cbn [map concat]. f_equal.
    rewrite toLowerCase_concat by assumption. rewrite map_map. f_equal.
    apply map_ext_in. intros x Hx. apply toLowerCase_spec_word.
    rewrite Forall_forall in Hl. auto.
  - now apply toLowerCase_asciiStr.
  - now apply Forall_concat.
Qed.

Lemma toLowerCase_spec_pascal p :
  Forall asciiStr p ->
  toLowerCase (spec_pascal p) = concat (map toLowerCase p).
Proof.
  intros H. unfold spec_pascal.
  rewrite toLowerCase_concat
    by (eapply Forall_map_in; [apply spec_word_asciiStr | exact H]).
  rewrite map_map. f_equal.
  apply map_ext_in. intros x Hx. apply toLowerCase_spec_word.
  rewrite Forall_forall in H. auto.
Qed.

Lemma strip_uppered (sep : code -> bool) d l :
  sep d = true -> (forall c, sep c = true -> isDelim c = true) ->
  Forall (Forall (fun c => sep c = false)) l ->
  strip sep (join [d] (map toUpperCase l)) = concat (map toUpperCase l).
Proof.
  intros Hd Hsep H. apply strip_join; [exact Hd|].
  eapply Forall_map_in; [|exact H].
  intros w Hw. now apply toUpperCase_keeps.
Qed.

Lemma strip_lowered (sep : code -> bool) d l :
  sep d = true -> (forall c, sep c = true -> isDelim c = true) ->
  Forall (Forall (fun c => sep c = false)) l ->
  strip sep (join [d] (map toLowerCase l)) = concat (map toLowerCase l).
Proof.
  intros Hd Hsep H. apply strip_join; [exact Hd|].
  eapply Forall_map_in; [|exact H].
  intros w Hw. now apply toLowerCase_keeps.
Qed.

(** C9, amended: on non-empty pieces of ASCII characters without an
    underscore, the uppercased result of [camelCase] is the result of
    [constantCase] with its underscores removed. *)
Theorem camelCase_upper_is_constantCase_stripped p :
  Forall (fun w => w <> [] /\ asciiStr w /\ ~ List.In underscore w) p ->
  result_map toUpperCase (camelCase (Pieces p))
  = Ok (strip isUnderscore (constantCase (Pieces p))).
Proof.
  intros H. rewrite camelCase_pieces. unfold result_map, constantCase, pieces.
  cbn [bind]. f_equal.
  rewrite toUpperCase_spec_camel
    by (eapply Forall_impl; [|exact H]; now intros w (_ & ? & _)).
  symmetry. apply strip_uppered;
    [reflexivity | apply isUnderscore_isDelim |].
  eapply Forall_impl; [|exact H]. intros w (_ & _ & Hu).
  apply Forall_forall. intros c Hc.
  destruct (isUnderscore c) eqn:E; [|reflexivity].
  apply N.eqb_eq in E. subst c. contradiction.
Qed.

Lemma lowered_pieces p :
  Forall (fun w => w <> [] /\ asciiStr w /\
                   Forall (fun c => isDelim c = false) w) p ->
  Forall (fun w => bmpStr w /\ is_piece uval w = true) (map toLowerCase p).
Proof.
  apply Forall_map_in. intros w (Hw & Ha & Hd). split.
  - now apply asciiStr_bmp, toLowerCase_asciiStr.
  - now apply toLowerCase_is_piece.
Qed.

Lemma uppered_pieces p :
  Forall (fun w => w <> [] /\ Forall (fun c => isLetter c = true) w) p ->
  Forall (fun w => bmpStr w /\ is_piece uval w = true) (map toUpperCase p).
Proof.
  apply Forall_map_in. intros w (Hw & Hl). split.
  - apply asciiStr_bmp, toUpperCase_asciiStr.
    eapply Forall_impl; [|exact Hl]. apply isLetter_ascii.
  - now apply toUpperCase_is_piece.
Qed.

Lemma ascii_wellformed s :
  asciiStr s ->
  Forall (fun w => w <> [] /\ asciiStr w /\
                   Forall (fun c => isDelim c = false) w) (splitPieces s).
Proof.
  intros H. pose proof (pieces_sub _ s H) as Ha.
  pose proof (splitPieces_wellformed s) as Hw.
  revert Ha Hw. generalize (splitPieces s).
  induction l as [|w l IH]; intros Ha Hw; [constructor|].
  inversion Ha; inversion Hw as [|? ? [? ?] ?]; subst. constructor; auto.
Qed.

Lemma ascii_pieces s : asciiStr s -> Forall asciiStr (splitPieces s).
Proof. apply pieces_sub. Qed.

(** X5: splitting the snake or kebab form of non-empty ASCII pieces without
    delimiters gives the pieces back, lowercased; C8 is the case of pieces
    that are lowercase already. *)
Theorem snakeCase_kebabCase_resplit p :
  Forall (fun w => w <> [] /\ asciiStr w /\
                   Forall (fun c => isDelim c = false) w) p ->
  splitPieces (snakeCase (Pieces p)) = map toLowerCase p /\
  splitPieces (kebabCase (Pieces p)) = map toLowerCase p.
Proof.
  intros H. split; apply splitPieces_join;
    solve [reflexivity | now apply lowered_pieces].
Qed.

Lemma splitPieces_snake s :
  asciiStr s ->
  splitPieces (snakeCase (Text s)) = map toLowerCase (splitPieces s).
Proof.
  intros H. apply splitPieces_join; [reflexivity|].
  now apply lowered_pieces, ascii_wellformed.
Qed.

Lemma splitPieces_kebab s :
  asciiStr s ->
  splitPieces (kebabCase (Text s)) = map toLowerCase (splitPieces s).
Proof.
  intros H. apply splitPieces_join; [reflexivity|].
  now apply lowered_pieces, ascii_wellformed.
Qed.

(** X6: on an ASCII string, conversions through snake or kebab case lose
    nothing that snake, kebab and constant case look at: each of the three,
    applied to the snake or kebab form, gives what it gives on the string
    itself; in particular [snakeCase] and [kebabCase] are idempotent. *)
Theorem lowercase_conversions_compose s :
  asciiStr s ->
  snakeCase (Text (snakeCase (Text s))) = snakeCase (Text s) /\
  snakeCase (Text (kebabCase (Text s))) = snakeCase (Text s) /\
  kebabCase (Text (kebabCase (Text s))) = kebabCase (Text s) /\
  kebabCase (Text (snakeCase (Text s))) = kebabCase (Text s) /\
  constantCase (Text (snakeCase (Text s))) = constantCase (Text s) /\
  constantCase (Text (kebabCase (Text s))) = constantCase (Text s).
Proof.
  intros Ha. pose proof (ascii_pieces s Ha) as Hp.
  assert (L : map toLowerCase (map toLowerCase (splitPieces s))
              = map toLowerCase (splitPieces s)).
  { rewrite map_map. apply map_ext_in. intros w Hw.
    apply toLowerCase_lower. rewrite Forall_forall in Hp. auto. }
  assert (V : map toUpperCase (map toLowerCase (splitPieces s))
              = map toUpperCase (splitPieces s)).
  { rewrite map_map. apply map_ext_in. intros w Hw.
    apply toUpperCase_lower. rewrite Forall_forall in Hp. auto. }
  assert (S : forall a, map toLowerCase (splitPieces a)
                        = map toLowerCase (splitPieces s) ->
                        snakeCase (Text a) = snakeCase (Text s)).
  { intros a E. unfold snakeCase. cbn [pieces]. now rewrite E. }
  assert (K : forall a, map toLowerCase (splitPieces a)
                        = map toLowerCase (splitPieces s) ->
                        kebabCase (Text a) = kebabCase (Text s)).
  { intros a E. unfold kebabCase. cbn [pieces]. now rewrite E. }
  assert (C : forall a, map toUpperCase (splitPieces a)
                        = map toUpperCase (splitPieces s) ->
                        constantCase (Text a) = constantCase (Text s)).
  { intros a E. unfold constantCase. cbn [pieces]. now rewrite E. }
  repeat split; [apply S | apply S | apply K | apply K | apply C | apply C];
    rewrite ?splitPieces_snake, ?splitPieces_kebab by assumption;
    assumption.
Qed.

(** X7: constant round trip: splitting the constant form of non-empty
    pieces made of ASCII letters gives the pieces back, uppercased. *)
Theorem constantCase_resplit p :
  Forall (fun w => w <> [] /\ Forall (fun c => isLetter c = true) w) p ->
  splitPieces (constantCase (Pieces p)) = map toUpperCase p.
Proof.
  intros H. apply splitPieces_join; [reflexivity|].
  now apply uppered_pieces.
Qed.

Lemma letters_pieces s :
  Forall (fun c => isLetter c || isDelim c = true) s ->
  Forall (fun w => w <> [] /\ Forall (fun c => isLetter c = true) w)
         (splitPieces s).
Proof.
  intros H. apply pieces_sub in H.
  pose proof (splitPieces_wellformed s) as W.
  induction W as [|w l [Hw Hd] _ IH]; [constructor|].
  inversion H as [|? ? Hl Hrest]; subst.
  constructor; [|now apply IH].
  split; [assumption|].
  clear - Hd Hl. induction Hd as [|c w Hc _ IH]; [constructor|].
  inversion Hl as [|? ? Hlc Hlw]; subst.
  constructor; [|now apply IH].
  rewrite Hc in Hlc. now rewrite orb_false_r in Hlc.
Qed.

(** X8: on a string of ASCII letters and delimiters the constant form
    splits into the uppercased pieces of the string, so [constantCase] is
    idempotent there and [snakeCase] and [kebabCase] of the constant form
    are those of the string. *)
Theorem constantCase_on_letters s :
  Forall (fun c => isLetter c || isDelim c = true) s ->
  splitPieces (constantCase (Text s)) = map toUpperCase (splitPieces s) /\
  constantCase (Text (constantCase (Text s))) = constantCase (Text s) /\
  snakeCase (Text (constantCase (Text s))) = snakeCase (Text s) /\
  kebabCase (Text (constantCase (Text s))) = kebabCase (Text s).
Proof.
  intros H. pose proof (letters_pieces s H) as Hl.
  assert (Hp : Forall asciiStr (splitPieces s)).
  { eapply Forall_impl; [|exact Hl]. intros w [_ Hw].
    eapply Forall_impl; [|exact Hw]. apply isLetter_ascii. }
  assert (E : splitPieces (constantCase (Text s))
              = map toUpperCase (splitPieces s)).
  { apply splitPieces_join; [reflexivity|]. now apply uppered_pieces. }
  split; [exact E|].
  unfold constantCase at 1 3, snakeCase, kebabCase. cbn [pieces].
  rewrite E, !map_map. rewrite Forall_forall in Hp.
  rewrite (map_ext_in (fun w => toUpperCase (toUpperCase w)) toUpperCase),
    (map_ext_in (fun w => toLowerCase (toUpperCase w)) toLowerCase);
    [repeat split| |].
  - intros w Hw. apply toLowerCase_upper. auto.
  - intros w Hw. apply toUpperCase_upper. auto.
Qed.

(** X9: on pieces of ASCII characters, the snake and kebab forms hold no
    uppercase letter and the constant form holds no lowercase letter. *)
Theorem formatters_output_case x :
  Forall asciiStr (pieces x) ->
  Forall (fun c => isLu c = false) (snakeCase x) /\
  Forall (fun c => isLu c = false) (kebabCase x) /\
  Forall (fun c => isLl c = false) (constantCase x).
Proof.
  intros H.
  assert (L : Forall (Forall (fun c => isLu c = false))
                     (map toLowerCase (pieces x))).
  { eapply Forall_map_in; [|exact H]. intros w Hw.
    rewrite toLowerCase_ascii by assumption.
    induction Hw as [|c w Hc _ IH]; simpl; constructor;
      [now apply isLu_lower | assumption]. }
  assert (V : Forall (Forall (fun c => isLl c = false))
                     (map toUpperCase (pieces x))).
  { eapply Forall_map_in; [|exact H]. intros w Hw.
    rewrite toUpperCase_ascii by assumption.
    induction Hw as [|c w Hc _ IH]; simpl; constructor;
      [apply isLl_upper | assumption]. }
  repeat split; apply Forall_join; try assumption; now repeat constructor.
Qed.

(** X13: the forms of an ASCII string differ in case and joiners only:
    uppercased, its camel and pascal forms are its constant form without
    underscores, and lowercased they are its snake form without
    underscores. *)
Theorem forms_agree_up_to_case s :
  asciiStr s ->
  result_map toUpperCase (camelCase (Text s))
  = Ok (strip isUnderscore (constantCase (Text s))) /\
  result_map toUpperCase (pascalCase (Text s))
  = Ok (strip isUnderscore (constantCase (Text s))) /\
  result_map toLowerCase (camelCase (Text s))
  = Ok (strip isUnderscore (snakeCase (Text s))) /\
  result_map toLowerCase (pascalCase (Text s))
  = Ok (strip isUnderscore (snakeCase (Text s))).
Proof.
  intros Ha. pose proof (ascii_pieces s Ha) as Hp.
  pose proof (split_pieces_free isUnderscore s isUnderscore_isDelim) as W.
  assert (V : strip isUnderscore (constantCase (Text s))
              = concat (map toUpperCase (splitPieces s))).
  { apply strip_uppered;
      [reflexivity | apply isUnderscore_isDelim | exact W]. }
  assert (L : strip isUnderscore (snakeCase (Text s))
              = concat (map toLowerCase (splitPieces s))).
  { apply strip_lowered;
      [reflexivity | apply isUnderscore_isDelim | exact W]. }
  rewrite V, L.
  change (camelCase (Text s)) with (camelCase (Pieces (splitPieces s))).
  change (pascalCase (Text s)) with (pascalCase (Pieces (splitPieces s))).
  rewrite camelCase_pieces, pascalCase_pieces. unfold result_map. cbn [bind].
  now rewrite toUpperCase_spec_camel, toUpperCase_spec_pascal,
    toLowerCase_spec_camel, toLowerCase_spec_pascal by assumption.
Qed.

(** X14: the title form of an ASCII string splits into the rendered pieces
    of the string, and [titleCase] maps it to itself: [titleCase] is
    idempotent on ASCII strings. *)
Theorem titleCase_idempotent s :
  asciiStr s ->
  exists r,
    titleCase (Text s) = Ok r /\
    splitPieces r = map spec_word (splitPieces s) /\
    titleCase (Text r) = Ok r.
Proof.
  intros Ha. pose proof (ascii_shapes s Ha) as Hs.
  exists (spec_title (splitPieces s)).
  assert (E : splitPieces (spec_title (splitPieces s))
              = map spec_word (splitPieces s)).
  { apply splitPieces_join; [reflexivity|].
    eapply Forall_map_in; [|exact Hs]. intros w [Hw Hp]. split.
    - now apply asciiStr_bmp, spec_word_asciiStr.
    - now apply spec_word_is_piece. }
  split; [apply (titleCase_pieces (splitPieces s))|]. split; [exact E|].
  change (titleCase (Text (spec_title (splitPieces s))))
    with (titleCase (Pieces (splitPieces (spec_title (splitPieces s))))).
  rewrite E, titleCase_pieces. unfold spec_title. rewrite map_map.
  f_equal. f_equal. apply map_ext_in. intros w Hw.
  apply spec_word_idempotent. rewrite Forall_forall in Hs.
  now destruct (Hs w Hw).
Qed.

(** *** Identifiers already in camel or pascal case *)

Lemma toLowerCase_fixed w :
  asciiStr w -> Forall (fun c => isLu c = false) w -> toLowerCase w = w.
Proof.
  intros Ha H. rewrite toLowerCase_ascii by assumption.
  induction Ha as [|c w Hc _ IH]; [reflexivity|].
  inversion H; subst. simpl. rewrite IH by assumption.
  now rewrite not_Lu_lower_fixed.
Qed.

Lemma toUpperCase_fixed w :
  asciiStr w -> Forall (fun c => isLu c = true) w -> toUpperCase w = w.
Proof.
  intros Ha H. rewrite toUpperCase_ascii by assumption.
  induction Ha as [|c w Hc _ IH]; [reflexivity|].
  inversion H; subst. simpl. rewrite IH by assumption.
  now rewrite (upperFixed_eq _ (isLu_upperFixed _ Hc ltac:(assumption))).
Qed.

Lemma cont_units_not_Lu t :
  forallb (isCont uval) t = true -> Forall (fun x => isLu x = false) t.
Proof.
  intros H. apply forallb_all in H.
  eapply Forall_impl; [|exact H]. intros x Hx. cbv beta in Hx.
  rewrite (isCont_value uval) in Hx. now apply isContV_not_Lu.
Qed.

(** A piece whose first character [toUpperCase] leaves alone is rendered
    unchanged. *)
Lemma spec_word_fixed w :
  asciiStr w -> is_piece uval w = true ->
  starts_with upperFixed w = true -> spec_word w = w.
Proof.
  intros Ha. destruct w as [|c t]; [discriminate|].
  cbn [is_piece starts_with].
  rewrite andb_true_iff. intros [_ Hshape] Hc.
  apply upperFixed_eq in Hc. unfold spec_word.
  destruct (str_eqb (toUpperCase (c :: t)) (c :: t)) eqn:E; [reflexivity|].
  rewrite (capital_ascii c t Ha), Hc. f_equal.
  inversion Ha as [|? ? Hac Hat]; subst.
  apply orb_true_iff in Hshape as [Ht|Ht].
  - rewrite <- (toLowerCase_ascii t Hat).
    now apply toLowerCase_fixed, cont_units_not_Lu.
  - apply andb_true_iff in Ht as [Hu Ht]. apply forallb_all in Ht.
    rewrite (toUpperCase_fixed (c :: t) Ha) in E by now constructor.
    rewrite (proj2 (str_eqb_eq _ _) eq_refl) in E. discriminate.
Qed.

Lemma upper_start_fixed l :
  Forall (fun p => asciiStr p /\ is_piece uval p = true) l ->
  Forall (fun p => starts_with isLu p = true) l ->
  map spec_word l = l.
Proof.
  intros H. induction H as [|w l [Ha Hw] _ IH]; intros Hu; [reflexivity|].
  inversion Hu as [|? ? Hw' Hl]; subst. simpl. rewrite IH by assumption.
  f_equal. apply spec_word_fixed; [assumption | assumption |].
  destruct w as [|c t]; [reflexivity|]. inversion Ha; subst.
  now apply isLu_upperFixed.
Qed.

Lemma is_piece_lower_start c t :
  is_piece uval (c :: t) = true -> isLu c = false ->
  Forall (fun x => isLu x = false) (c :: t).
Proof.
  cbn [is_piece]. rewrite andb_true_iff. intros [_ Hshape] Hc.
  change (isLuOf uval c) with (isLu c) in Hshape.
  rewrite Hc in Hshape. cbn [andb] in Hshape. rewrite orb_false_r in Hshape.
  constructor; [assumption|]. now apply cont_units_not_Lu.
Qed.

(** The pieces of an ASCII string without delimiters: the first starts with
    the first character of the string, the later ones with an uppercase
    letter, and together they are the string. *)
Lemma identifier_pieces c r :
  asciiStr (c :: r) -> Forall (fun x => isDelim x = false) (c :: r) ->
  exists t l,
    splitPieces (c :: r) = (c :: t) :: l /\
    (c :: t) ++ concat l = c :: r /\
    asciiStr (c :: t) /\ is_piece uval (c :: t) = true /\
    Forall (fun p => asciiStr p /\ is_piece uval p = true) l /\
    Forall (fun p => starts_with isLu p = true) l.
Proof.
  intros Ha Hd. pose proof (asciiStr_bmp _ Ha) as Hb.
  inversion Hd as [|? ? Hc _]; subst.
  destruct (split_first uval c r Hc) as (t & l & E).
  pose proof (proj1 (later_pieces_upper uval (c :: r) Hd)) as Hl.
  pose proof (ascii_shapes (c :: r) Ha) as Hp.
  pose proof (splitPieces_concat (c :: r)) as Hcat.
  rewrite (strip_clean _ _ Hd) in Hcat.
  rewrite (splitPieces_bmp _ Hb) in Hp, Hcat.
  unfold split in E. unfold split in Hl, Hp, Hcat. rewrite E in Hl, Hp, Hcat.
  cbn [tl] in Hl. inversion Hp as [|? ? [Hw1 Hw2] Hpl]; subst.
  exists t, l. rewrite (splitPieces_bmp _ Hb). unfold split.
  repeat split; assumption.
Qed.

Lemma camelCase_unchanged r :
  asciiStr r ->
  Forall (fun c => isDelim c = false) r ->
  starts_with (fun c => negb (isLu c)) r = true ->
  camelCase (Text r) = Ok r.
Proof.
  intros Ha Hd Hs.
  change (camelCase (Text r)) with (camelCase (Pieces (splitPieces r))).
  rewrite camelCase_pieces. f_equal.
  destruct r as [|c r]; [reflexivity|].
  destruct (identifier_pieces c r Ha Hd)
    as (t & l & -> & Hcat & Hat & Hw & Hpl & Hl).
  cbn [spec_camel]. rewrite (upper_start_fixed l Hpl Hl).
  rewrite toLowerCase_fixed; [exact Hcat | exact Hat |].
  apply is_piece_lower_start; [assumption|].
  cbn [starts_with] in Hs. now apply negb_true_iff.
Qed.

Lemma pascalCase_unchanged r :
  asciiStr r ->
  Forall (fun c => isDelim c = false) r ->
  starts_with upperFixed r = true ->
  pascalCase (Text r) = Ok r.
Proof.
  intros Ha Hd Hs.
  change (pascalCase (Text r)) with (pascalCase (Pieces (splitPieces r))).
  rewrite pascalCase_pieces. f_equal.
  destruct r as [|c r]; [reflexivity|].
  destruct (identifier_pieces c r Ha Hd)
    as (t & l & -> & Hcat & Hat & Hw & Hpl & Hl).
  unfold spec_pascal. cbn [map concat]. rewrite (upper_start_fixed l Hpl Hl).
  now rewrite spec_word_fixed.
Qed.

Lemma spec_word_start w :
  asciiStr w -> starts_with upperFixed (spec_word w) = true.
Proof.
  intros Ha. unfold spec_word.
  destruct (str_eqb (toUpperCase w) w) eqn:E.
  - apply str_eqb_eq in E. rewrite toUpperCase_ascii in E by assumption.
    destruct w as [|c t]; [reflexivity|].
    injection E as Ec _. simpl. unfold upperFixed.
    rewrite Ec. apply N.eqb_refl.
  - destruct w as [|c t]; [reflexivity|].
    rewrite (capital_ascii c t Ha). apply upperFixed_upper.
Qed.

Lemma spec_camel_asciiStr l : Forall asciiStr l -> asciiStr (spec_camel l).
Proof.
  intros H. destruct H as [|w l Hw Hl]; [constructor|].
  cbn [spec_camel]. apply Forall_app. split.
  - now apply toLowerCase_asciiStr.
  - apply Forall_concat. eapply Forall_map_in; [|exact Hl].
    apply spec_word_asciiStr.
Qed.

Lemma spec_pascal_asciiStr l : Forall asciiStr l -> asciiStr (spec_pascal l).
Proof.
  intros H. apply Forall_concat. eapply Forall_map_in; [|exact H].
  apply spec_word_asciiStr.
Qed.

(** X15: [camelCase] leaves an ASCII camel-case identifier as it is: an
    ASCII string without underscore, dash or white space that does not
    start with an uppercase letter is returned unchanged. *)
Theorem camelCase_fixed r :
  asciiStr r ->
  Forall (fun c => isDelim c = false) r ->
  starts_with (fun c => negb (isLu c)) r = true ->
  camelCase (Text r) = Ok r.
Proof. apply camelCase_unchanged. Qed.

(** X16: [pascalCase] leaves an ASCII pascal-case identifier as it is: an
    ASCII string without underscore, dash or white space whose first
    character is not a lowercase letter is returned unchanged. *)
Theorem pascalCase_fixed r :
  asciiStr r ->
  Forall (fun c => isDelim c = false) r ->
  starts_with upperFixed r = true ->
  pascalCase (Text r) = Ok r.
Proof. apply pascalCase_unchanged. Qed.

(** X17: [camelCase] and [pascalCase] are idempotent on ASCII strings: each
    maps its own result to itself. *)
Theorem camelCase_pascalCase_idempotent s :
  asciiStr s ->
  (exists r, camelCase (Text s) = Ok r /\ camelCase (Text r) = Ok r) /\
  (exists r, pascalCase (Text s) = Ok r /\ pascalCase (Text r) = Ok r).
Proof.
  intros Ha. pose proof (ascii_wellformed s Ha) as W.
  pose proof (ascii_pieces s Ha) as Hp.
  pose proof (split_pieces_free isDelim s (fun c H => H)) as Hd.
  split.
  - exists (spec_camel (splitPieces s)).
    split; [apply (camelCase_pieces (splitPieces s))|].
    apply camelCase_unchanged;
      [now apply spec_camel_asciiStr
      | now apply spec_camel_keeps |].
    destruct (splitPieces s) as [|w l]; [reflexivity|].
    inversion W as [|? ? (Hw & Hwa & _) _]; subst.
    destruct w as [|c t]; [congruence|].
    cbn [spec_camel]. rewrite toLowerCase_ascii by assumption.
    inversion Hwa; subst. simpl. now rewrite isLu_lower.
  - exists (spec_pascal (splitPieces s)).
    split; [apply (pascalCase_pieces (splitPieces s))|].
    apply pascalCase_unchanged;
      [now apply spec_pascal_asciiStr
      | now apply spec_pascal_keeps |].
    destruct (splitPieces s) as [|w l]; [reflexivity|].
    inversion W as [|? ? (Hw & Hwa & _) _]; subst.
    unfold spec_pascal. cbn [map concat].
    pose proof (spec_word_nonempty w Hwa Hw) as Hn.
    pose proof (spec_word_start w Hwa) as Hs.
    destruct (spec_word w); [congruence | exact Hs].
Qed.

End Cases.

(** * Instances

    The theorems above hold for every table of the non-ASCII characters.
    The inputs below are ASCII strings (and a tab), on which the tables are
    not consulted; the statements are closed with the instance [plain]. *)

Lemma splitPieces_acronym_tiebreak_witness :
  splitPieces plain (lit "URL" ++ 70%N :: 117%N :: lit "nction_x")
  = lit "URL"
      :: (70%N :: 117%N :: takeWhile (isContV plain) (lit "nction_x"))
      :: splitPieces plain (dropWhile (isContV plain) (lit "nction_x")).
Proof.
  apply (proj2 (proj2 (proj2 (splitPieces_acronym_tiebreak plain)))).
  - discriminate.
  - repeat constructor.
  - reflexivity.
  - reflexivity.
  - repeat constructor.
Defined.

Lemma splitPieces_invariant_witness :
  concat (splitPieces plain (lit "parse__HTTPUrl-x 2"))
  = strip isNamedDelim (lit "parse__HTTPUrl-x 2").
Proof.
  apply (proj2 (splitPieces_invariant plain (lit "parse__HTTPUrl-x 2"))).
  repeat constructor.
Defined.

Lemma camelCase_spec_witness :
  camelCase plain (Pieces [lit "URL"; lit "ID"; lit "pArser"; lit "42"])
  = Ok (lit "urlIDParser42").
Proof.
  apply (camelCase_spec plain [lit "URL"; lit "ID"; lit "pArser"; lit "42"]).
  repeat constructor; discriminate.
Defined.

Lemma titleCase_pascalCase_spec_witness :
  titleCase plain (Pieces [lit "URL"; lit "42"; lit "fooBar"])
  = Ok (lit "URL 42 Foobar") /\
  pascalCase plain (Pieces [lit "URL"; lit "42"; lit "fooBar"])
  = Ok (lit "URL42Foobar").
Proof.
  assert (H : Forall (fun w : str => w <> [])
                     [lit "URL"; lit "42"; lit "fooBar"])
    by (repeat constructor; discriminate).
  split.
  - apply (proj1 (titleCase_pascalCase_spec plain _ H)).
  - apply (proj1 (proj2 (titleCase_pascalCase_spec plain _ H))).
Defined.

(** C6, counterexample: "a", tab, "b" holds no uppercase letter and is one
    maximal run of characters other than space, dash and underscore, but
    [splitPieces] cuts it at the tab. *)
Lemma splitPieces_tab_splits :
  Forall (fun c => isLuOf plain cp_val c = false)
         (decode (lit "a" ++ tab :: lit "b")) /\
  splitPieces plain (lit "a" ++ tab :: lit "b") = [lit "a"; lit "b"] /\
  maximal_runs isNamedDelim (lit "a" ++ tab :: lit "b")
  = [lit "a" ++ tab :: lit "b"] /\
  splitPieces plain (lit "a" ++ tab :: lit "b")
  <> maximal_runs isNamedDelim (lit "a" ++ tab :: lit "b").
Proof.
  split; [repeat constructor|].
  split; [reflexivity|]. split; [reflexivity|].
  vm_compute. discriminate.
Qed.

Lemma splitPieces_maximal_runs_witness :
  splitPieces plain (lit "ab_c" ++ tab :: lit "d--e" ++ 160%N :: lit "f g")
  = maximal_runs isDelim
      (lit "ab_c" ++ tab :: lit "d--e" ++ 160%N :: lit "f g").
Proof.
  apply (splitPieces_maximal_runs plain
           (lit "ab_c" ++ tab :: lit "d--e" ++ 160%N :: lit "f g")).
  repeat constructor.
Defined.

Lemma splitPieces_and_formatters_on_empty_witness :
  splitPieces plain (lit " -__- ") = [].
Proof.
  apply (proj1 (proj2 (splitPieces_and_formatters_on_empty plain))).
  repeat constructor.
Defined.

Lemma kebabCase_roundtrip_witness :
  splitPieces plain
    (kebabCase plain (Pieces [lit "hello"; lit "big"; lit "world"]))
  = [lit "hello"; lit "big"; lit "world"].
Proof.
  apply (kebabCase_roundtrip plain [lit "hello"; lit "big"; lit "world"]).
  repeat constructor; discriminate.
Defined.

(** C9, counterexample: the piece "a_b" is used as it is, so the uppercased
    camel form keeps its underscore, which the constant form loses with the
    others. *)
Lemma camelCase_upper_keeps_underscore :
  Forall (fun w : str => w <> []) [lit "a_b"] /\
  result_map (toUpperCase plain) (camelCase plain (Pieces [lit "a_b"]))
  = Ok (lit "A_B") /\
  strip isUnderscore (constantCase plain (Pieces [lit "a_b"])) = lit "AB" /\
  result_map (toUpperCase plain) (camelCase plain (Pieces [lit "a_b"]))
  <> Ok (strip isUnderscore (constantCase plain (Pieces [lit "a_b"]))).
Proof.
  split; [repeat constructor; discriminate|].
  split; [reflexivity|]. split; [reflexivity|].
  vm_compute. discriminate.
Qed.

Lemma camelCase_upper_is_constantCase_stripped_witness :
  result_map (toUpperCase plain)
    (camelCase plain (Pieces [lit "parse"; lit "URL"; lit "fn"]))
  = Ok (strip isUnderscore
          (constantCase plain (Pieces [lit "parse"; lit "URL"; lit "fn"]))).
Proof.
  apply (camelCase_upper_is_constantCase_stripped plain
           [lit "parse"; lit "URL"; lit "fn"]).
  repeat constructor; try discriminate;
    intros Hin; vm_compute in Hin; repeat destruct Hin as [Hin|Hin];
      try discriminate; exact Hin.
Defined.

Lemma formatters_never_raise_witness :
  lit "ab" <> [] /\ capitalize plain (lit "ab") <> TypeError.
Proof.
  apply (proj2 (proj2 (proj2 (proj2 (proj2
           (formatters_never_raise plain [lit "a"; []; lit "b"])))))).
  reflexivity.
Defined.

Lemma splitPieces_delimiter_cut_witness :
  splitPieces plain (lit "parseURL" ++ tab :: lit "fooBar")
  = splitPieces plain (lit "parseURL") ++ splitPieces plain (lit "fooBar").
Proof.
  apply (splitPieces_delimiter_cut plain
           (lit "parseURL") tab (lit "fooBar")).
  reflexivity.
Defined.

Lemma pieces_are_atomic_witness :
  splitPieces plain (lit "URL") = [lit "URL"].
Proof.
  apply (proj1 (pieces_are_atomic plain (lit "parseURLFunction"))).
  right. left. reflexivity.
Defined.

Lemma snakeCase_kebabCase_resplit_witness :
  splitPieces plain
    (snakeCase plain (Pieces [lit "parseURL"; lit "v2"; lit "X"]))
  = [lit "parseurl"; lit "v2"; lit "x"].
Proof.
  apply (proj1 (snakeCase_kebabCase_resplit plain
                  [lit "parseURL"; lit "v2"; lit "X"]
                  ltac:(repeat constructor; discriminate))).
Defined.

Lemma lowercase_conversions_compose_witness :
  snakeCase plain (Text (kebabCase plain (Text (lit "parseURL fooBar"))))
  = snakeCase plain (Text (lit "parseURL fooBar")).
Proof.
  apply (proj1 (proj2 (lowercase_conversions_compose plain
                         (lit "parseURL fooBar")
                         ltac:(repeat constructor)))).
Defined.

Lemma constantCase_resplit_witness :
  splitPieces plain
    (constantCase plain (Pieces [lit "parse"; lit "URL"; lit "fooBar"]))
  = [lit "PARSE"; lit "URL"; lit "FOOBAR"].
Proof.
  apply (constantCase_resplit plain
           [lit "parse"; lit "URL"; lit "fooBar"]).
  repeat constructor; discriminate.
Defined.

Lemma constantCase_on_letters_witness :
  constantCase plain
    (Text (constantCase plain (Text (lit "parseURL fooBar"))))
  = constantCase plain (Text (lit "parseURL fooBar")).
Proof.
  apply (proj1 (proj2 (constantCase_on_letters plain
                         (lit "parseURL fooBar")
                         ltac:(repeat constructor)))).
Defined.

Lemma formatters_output_case_witness :
  Forall (fun c => isLl c = false)
         (constantCase plain (Pieces [lit "foo bar"; lit "URL_x"])).
Proof.
  apply (proj2 (proj2 (formatters_output_case plain
                         (Pieces [lit "foo bar"; lit "URL_x"])
                         ltac:(repeat constructor)))).
Defined.

Lemma joiner_count_witness :
  count_occ N.eq_dec
    (snakeCase plain (Text (lit "parseURL fooBar"))) underscore
  = length (pieces plain (Text (lit "parseURL fooBar"))) - 1.
Proof.
  apply (joiner_count plain (Text (lit "parseURL fooBar"))).
  vm_compute. repeat constructor; intros Hin;
    repeat destruct Hin as [Hin|Hin]; try discriminate; exact Hin.
Defined.

Lemma titleCase_without_spaces_witness :
  result_map (strip isSpace)
    (titleCase plain (Pieces [lit "foo_bar"; lit "URL"]))
  = pascalCase plain (Pieces [lit "foo_bar"; lit "URL"]).
Proof.
  apply (proj1 (titleCase_without_spaces plain) [lit "foo_bar"; lit "URL"]).
  repeat constructor; discriminate.
Defined.

Lemma forms_agree_up_to_case_witness :
  result_map (toLowerCase plain)
    (pascalCase plain (Text (lit "parseURL foo_bar")))
  = Ok (strip isUnderscore
          (snakeCase plain (Text (lit "parseURL foo_bar")))).
Proof.
  apply (proj2 (proj2 (proj2 (forms_agree_up_to_case plain
                                (lit "parseURL foo_bar")
                                ltac:(repeat constructor))))).
Defined.

Lemma titleCase_idempotent_witness :
  exists r,
    titleCase plain (Text (lit "parseURL foo_bar")) = Ok r /\
    splitPieces plain r
    = map (spec_word plain) (splitPieces plain (lit "parseURL foo_bar")) /\
    titleCase plain (Text r) = Ok r.
Proof.
  apply (titleCase_idempotent plain (lit "parseURL foo_bar")).
  repeat constructor.
Defined.

Lemma camelCase_fixed_witness :
  camelCase plain (Text (lit "parseURLFunction2go"))
  = Ok (lit "parseURLFunction2go").
Proof.
  apply (camelCase_fixed plain (lit "parseURLFunction2go")).
  - repeat constructor.
  - repeat constructor.
  - reflexivity.
Defined.

Lemma pascalCase_fixed_witness :
  pascalCase plain (Text (lit "ParseURLFunction2go"))
  = Ok (lit "ParseURLFunction2go").
Proof.
  apply (pascalCase_fixed plain (lit "ParseURLFunction2go")).
  - repeat constructor.
  - repeat constructor.
  - reflexivity.
Defined.

Lemma camelCase_pascalCase_idempotent_witness :
  exists r,
    camelCase plain (Text (lit "parse_URL fooBar")) = Ok r /\
    camelCase plain (Text r) = Ok r.
Proof.
  apply (proj1 (camelCase_pascalCase_idempotent plain
                  (lit "parse_URL fooBar")
                  ltac:(repeat constructor))).
Defined.
